(** * oauth2-article: the social-login test harness and its settings

    A shallow embedding of [test_social.py] and [settings.py]: the mock
    provider endpoint ([USER_INFO], [respond_to], [mocked]), the URL pattern
    the test classes compile ([QUERY_STRINGS_RE], [mock_url]) with the parts
    of [urllib.parse], [json] and [re] they call, and the settings the
    login path reads.  The view the tests post to is not among the
    repository's files; module [Login] models it from the specification.

    Python [str] values are Rocq [string]s (read as UTF-8 byte strings: every
    key, token and pattern the program compares against is ASCII), [dict]s
    with string keys are [gmap string _], a dict whose order matters when it
    is serialised ([json.dumps]) is an association list, and a raised
    exception is the [Raise] branch of [result].  [urlsplit] is embedded with
    what it strips, deletes and rejects; the one check it makes beyond ASCII
    text (the normalisation of a network location that is not ASCII) is out
    of the embedding, and the properties of [respond_to] that depend on it
    take the URL, or its part before the query, to be ASCII. *)

From Stdlib Require Import Ascii String DecimalString DecimalNat.
From Stdlib Require HexadecimalString HexadecimalN.
From stdpp Require Import base option list strings gmap.

Set Default Proof Using "Type".

(** ** Python results: a value or a raised exception *)

Inductive exn : Type :=
  | KeyError (key : string)
  | IndexError
  | ValueError
  | ConnectionError.

Inductive result (A : Type) : Type :=
  | Ret (a : A)
  | Raise (e : exn).
Arguments Ret {A} a.
Arguments Raise {A} e.

Global Instance result_ret : MRet result := λ A a, Ret a.
Global Instance result_bind : MBind result := λ A B k r,
  match r with
  | Ret a => k a
  | Raise e => Raise e
  end.

(** ** Characters and string primitives *)

Module Str.

Definition dquote : ascii := Ascii false true false false false true false false.
Definition backslash : ascii := "\"%char.
Definition newline : ascii := "010"%char.

Definition is_empty (s : string) : bool :=
  match s with
  | EmptyString => true
  | String _ _ => false
  end.

(** [c in s] for a one-character needle. *)
Fixpoint contains (c : ascii) (s : string) : bool :=
  match s with
  | EmptyString => false
  | String d s' => Ascii.eqb d c || contains c s'
  end.

Fixpoint forallb (p : ascii → bool) (s : string) : bool :=
  match s with
  | EmptyString => true
  | String c s' => p c && forallb p s'
  end.

(** [s.partition(sep)]: the text before the first [sep], and the text after
    it when there is one ([None] is Python's empty second component). *)
Fixpoint partition (sep : ascii) (s : string) : string * option string :=
  match s with
  | EmptyString => (EmptyString, None)
  | String c s' =>
      if Ascii.eqb c sep then (EmptyString, Some s')
      else let '(a, b) := partition sep s' in (String c a, b)
  end.

(** [s.split(sep)]: the first field and the list of the following ones. *)
Fixpoint split_fields (sep : ascii) (s : string) : string * list string :=
  match s with
  | EmptyString => (EmptyString, [])
  | String c s' =>
      let '(f, fs) := split_fields sep s' in
      if Ascii.eqb c sep then (EmptyString, f :: fs) else (String c f, fs)
  end.

Definition split (sep : ascii) (s : string) : list string :=
  let '(f, fs) := split_fields sep s in f :: fs.

(** [s.replace(a, b)] for one-character [a]. *)
Fixpoint replace (a : ascii) (b : string) (s : string) : string :=
  match s with
  | EmptyString => EmptyString
  | String c s' =>
      if Ascii.eqb c a then b +:+ replace a b s' else String c (replace a b s')
  end.

(** [sep.join(l)] *)
Fixpoint join (sep : string) (l : list string) : string :=
  match l with
  | [] => EmptyString
  | [x] => x
  | x :: l' => x +:+ sep +:+ join sep l'
  end.

(** [s.lstrip(chars)], the set [chars] given by its membership test. *)
Fixpoint lstrip (chars : ascii → bool) (s : string) : string :=
  match s with
  | EmptyString => EmptyString
  | String c s' => if chars c then lstrip chars s' else s
  end.

(** [s.startswith(p)] *)
Fixpoint startswith (p s : string) : bool :=
  match p, s with
  | EmptyString, _ => true
  | String a p', String b s' => Ascii.eqb a b && startswith p' s'
  | String _ _, EmptyString => false
  end.

(** [s[n:]] *)
Fixpoint drop (n : nat) (s : string) : string :=
  match n, s with
  | S k, String _ s' => drop k s'
  | _, _ => s
  end.

(** [s.rpartition(sep)]: the text before the last [sep], when there is
    one, and the text after it (all of [s] when there is none). *)
Fixpoint rpartition (sep : ascii) (s : string) : option string * string :=
  match s with
  | EmptyString => (None, EmptyString)
  | String c s' =>
      match rpartition sep s' with
      | (Some a, b) => (Some (String c a), b)
      | (None, b) =>
          if Ascii.eqb c sep then (Some EmptyString, b) else (None, String c b)
      end
  end.

(** [s.isascii()] *)
Definition isascii (s : string) : bool :=
  forallb (λ c, (N_of_ascii c <? 128)%N) s.

Definition is_digit (c : ascii) : bool :=
  let n := N_of_ascii c in (48 <=? n)%N && (n <=? 57)%N.

Definition is_upper (c : ascii) : bool :=
  let n := N_of_ascii c in (65 <=? n)%N && (n <=? 90)%N.

Definition is_lower (c : ascii) : bool :=
  let n := N_of_ascii c in (97 <=? n)%N && (n <=? 122)%N.

(** [s.lower()] on ASCII text *)
Fixpoint lower (s : string) : string :=
  match s with
  | EmptyString => EmptyString
  | String c s' =>
      String (if is_upper c then ascii_of_N (N_of_ascii c + 32) else c) (lower s')
  end.

End Str.

(** ** [ipaddress]: the addresses [urlsplit] checks inside brackets

    [IPv4Address(s)] and [IPv6Address(s)] on a text: the integer of the
    address, or [None] where the constructor raises [AddressValueError]. *)

Module Ipaddress.

(** [int(s, 10)] and [int(s, 16)] on a text of digits; the empty text has
    no value. *)
Definition digit_value (c : ascii) : N := (N_of_ascii c - 48)%N.

Definition hex_digit_value (c : ascii) : option N :=
  let n := N_of_ascii c in
  if Str.is_digit c then Some (n - 48)%N
  else if (65 <=? n)%N && (n <=? 70)%N then Some (n - 55)%N
  else if (97 <=? n)%N && (n <=? 102)%N then Some (n - 87)%N
  else None.

Definition is_hex_digit (c : ascii) : bool :=
  match hex_digit_value c with
  | Some _ => true
  | None => false
  end.

Fixpoint int_from (base acc : N) (value : ascii → N) (s : string) : N :=
  match s with
  | EmptyString => acc
  | String c s' => int_from base (base * acc + value c)%N value s'
  end.

Definition int (base : N) (value : ascii → N) (s : string) : option N :=
  if Str.is_empty s then None else Some (int_from base 0%N value s).

(** [_BaseV4._parse_octet] *)
Definition parse_octet (octet_str : string) : option N :=
  if Str.is_empty octet_str then None
  else if negb (Str.forallb Str.is_digit octet_str) then None
  else if 3 <? String.length octet_str then None
  else if negb (String.eqb octet_str "0") && Str.startswith "0" octet_str then None
  else
    octet_int ← int 10 digit_value octet_str;
    if (255 <? octet_int)%N then None else Some octet_int.

(** [int.from_bytes(octets, 'big')] *)
Definition from_bytes (octets : list N) : N :=
  foldl (λ acc octet, 256 * acc + octet)%N 0%N octets.

(** [IPv4Address(address)] for a text *)
Definition IPv4Address (address : string) : option N :=
  if Str.contains "/" address then None
  else if Str.is_empty address then None
  else
    let octets := Str.split "." address in
    if negb (length octets =? 4) then None
    else from_bytes <$> mapM parse_octet octets.

(** [_BaseV6._parse_hextet] *)
Definition parse_hextet (hextet_str : string) : option N :=
  if negb (Str.forallb is_hex_digit hextet_str) then None
  else if 4 <? String.length hextet_str then None
  else int 16 (λ c, default 0%N (hex_digit_value c)) hextet_str.

(** ['%x' % n] *)
Definition format_x (n : N) : string :=
  HexadecimalString.NilZero.string_of_uint (N.to_hex_uint n).

(** [_BaseV6._split_scope_id]: the address without its scope id *)
Definition split_scope_id (ip_str : string) : option string :=
  match Str.partition "%" ip_str with
  | (addr, None) => Some addr
  | (addr, Some scope_id) =>
      if Str.is_empty scope_id || Str.contains "%" scope_id then None
      else Some addr
  end.

(** The hextets of [parts], each shifted into [ip_int] in turn; [None]
    when [_parse_hextet] refuses one. *)
Definition shift_hextets (ip_int : N) (parts : list string) : option N :=
  foldl (λ acc part,
           ip_int ← acc;
           hextet ← parse_hextet part;
           Some (N.lor (N.shiftl ip_int 16) hextet))
        (Some ip_int) parts.

(** [_BaseV6._ip_int_from_string] *)
Definition ip_int_from_string (ip_str : string) : option N :=
  if Str.is_empty ip_str then None
  else
    let parts := Str.split ":" ip_str in
    if length parts <? 3 then None
    else
      parts ← (if Str.contains "." (List.last parts EmptyString) then
                 ipv4_int ← IPv4Address (List.last parts EmptyString);
                 Some (removelast parts
                       ++ [format_x (N.land (N.shiftr ipv4_int 16) 65535);
                           format_x (N.land ipv4_int 65535)])
               else Some parts);
      if 9 <? length parts then None
      else
        let skipped :=
          filter (λ i, Str.is_empty (parts !!! i) = true)
                 (seq 1 (length parts - 2)) in
        match skipped with
        | _ :: _ :: _ => None
        | [skip_index] =>
            let parts_hi := skip_index in
            let parts_lo := length parts - skip_index - 1 in
            parts_hi ←
               (if Str.is_empty (parts !!! 0) then
                  if 0 <? parts_hi - 1 then None else Some (parts_hi - 1)
                else Some parts_hi);
            parts_lo ←
               (if Str.is_empty (List.last parts EmptyString) then
                  if 0 <? parts_lo - 1 then None else Some (parts_lo - 1)
                else Some parts_lo);
            if 8 <=? parts_hi + parts_lo then None
            else
              let parts_skipped := 8 - (parts_hi + parts_lo) in
              ip_int ← shift_hextets 0%N (take parts_hi parts);
              shift_hextets (N.shiftl ip_int (N.of_nat (16 * parts_skipped)))
                            (List.skipn (length parts - parts_lo) parts)
        | [] =>
            if negb (length parts =? 8) then None
            else if Str.is_empty (parts !!! 0) then None
            else if Str.is_empty (List.last parts EmptyString) then None
            else shift_hextets 0%N parts
        end.

(** [IPv6Address(address)] for a text *)
Definition IPv6Address (address : string) : option N :=
  if Str.contains "/" address then None
  else
    addr_str ← split_scope_id address;
    ip_int_from_string addr_str.

Inductive address : Type :=
  | V4 (ip : N)
  | V6 (ip : N).

(** [ip_address(address)]: [Raise ValueError] when the text is neither. *)
Definition ip_address (addr : string) : result address :=
  match IPv4Address addr with
  | Some ip => Ret (V4 ip)
  | None =>
      match IPv6Address addr with
      | Some ip => Ret (V6 ip)
      | None => Raise ValueError
      end
  end.

End Ipaddress.

(** ** [urllib.parse] *)

Module Urllib.

(** *** Hexadecimal digits ([_hexdig], both cases) *)

Definition hex_value (c : ascii) : option N :=
  let n := N_of_ascii c in
  if (48 <=? n)%N && (n <=? 57)%N then Some (n - 48)%N
  else if (65 <=? n)%N && (n <=? 70)%N then Some (n - 55)%N
  else if (97 <=? n)%N && (n <=? 102)%N then Some (n - 87)%N
  else None.

Definition hextobyte (a b : ascii) : option ascii :=
  match hex_value a, hex_value b with
  | Some h, Some l => Some (ascii_of_N (16 * h + l))
  | _, _ => None
  end.

(** *** [unquote]

    [unquote_to_bytes] cuts the text at every percent sign and decodes the
    first two characters of each later piece when both are hexadecimal
    digits; otherwise the percent sign stays.  A piece holds no percent
    sign, so scanning from the left and decoding a percent sign followed by
    two hexadecimal digits gives the same bytes. *)
Fixpoint unquote_from (skip : nat) (s : string) : string :=
  match s with
  | EmptyString => EmptyString
  | String c s' =>
      match skip with
      | S k => unquote_from k s'
      | O =>
          if Ascii.eqb c "%" then
            match s' with
            | String a (String b _) =>
                match hextobyte a b with
                | Some d => String d (unquote_from 2 s')
                | None => String c (unquote_from 0 s')
                end
            | _ => String c (unquote_from 0 s')
            end
          else String c (unquote_from 0 s')
      end
  end.

Definition unquote (s : string) : string := unquote_from 0 s.

(** [_unquote] of [parse_qsl]: plus signs become spaces, then [unquote]. *)
Definition unquote_plus (s : string) : string :=
  unquote (Str.replace "+" " " s).

(** *** [quote] with no safe characters: letters, digits and [_.-~] stay,
    every other byte becomes a percent sign and two upper-case hexadecimal
    digits. *)
Definition is_unreserved (c : ascii) : bool :=
  let n := N_of_ascii c in
  (48 <=? n)%N && (n <=? 57)%N || (65 <=? n)%N && (n <=? 90)%N
  || (97 <=? n)%N && (n <=? 122)%N
  || Ascii.eqb c "_" || Ascii.eqb c "." || Ascii.eqb c "-" || Ascii.eqb c "~".

Definition upper_hex (n : N) : ascii :=
  if (n <? 10)%N then ascii_of_N (48 + n) else ascii_of_N (55 + n).

Definition quote_char (c : ascii) : string :=
  if is_unreserved c then String c EmptyString
  else
    let n := N_of_ascii c in
    String "%" (String (upper_hex (n / 16)) (String (upper_hex (n mod 16)) EmptyString)).

Fixpoint quote (s : string) : string :=
  match s with
  | EmptyString => EmptyString
  | String c s' => quote_char c +:+ quote s'
  end.

(** The characters a quoted text is made of. *)
Definition quote_safe (c : ascii) : bool := is_unreserved c || Ascii.eqb c "%".

(** *** [urlsplit] and [urlparse]

    [urlsplit] strips the leading C0 control characters and spaces, deletes
    every tab, carriage return and line feed, takes the scheme (the text
    before the first colon when it starts with a letter and holds only
    scheme characters) and, after two slashes, the network location up to
    the first slash, question mark or hash.  A network location with a
    bracket must have both, hold nothing before the opening one (after the
    user information) and nothing but a port after the closing one, and
    what is between them must be an IPv6 or an IPvFuture address;
    otherwise [urlsplit] raises [ValueError].  The fragment is cut at the
    first hash of what is left, then the query at the first question mark.
    [_checknetloc] returns at once on an ASCII network location. *)

Definition is_c0_control_or_space (c : ascii) : bool := (N_of_ascii c <=? 32)%N.

Definition UNSAFE_URL_BYTES_TO_REMOVE : list ascii := ["009"; "013"; "010"]%char.

Definition is_scheme_char (c : ascii) : bool :=
  Str.is_lower c || Str.is_upper c || Str.is_digit c
  || Ascii.eqb c "+" || Ascii.eqb c "-" || Ascii.eqb c ".".

(** The scheme and the rest of the URL: [url[:i].lower(), url[i+1:]] when
    the text before the first colon is a scheme, else no scheme. *)
Definition split_scheme (url : string) : string * string :=
  match Str.partition ":" url with
  | (String c head, Some rest) =>
      if (Str.is_lower c || Str.is_upper c)
         && Str.forallb is_scheme_char (String c head)
      then (Str.lower (String c head), rest)
      else (EmptyString, url)
  | _ => (EmptyString, url)
  end.

(** [_splitnetloc(url, 2)] on the text after the two slashes: the domain
    ends at the earliest of the delimiters [/?#], or with the text. *)
Fixpoint splitnetloc (url : string) : string * string :=
  match url with
  | EmptyString => (EmptyString, EmptyString)
  | String c url' =>
      if Ascii.eqb c "/" || Ascii.eqb c "?" || Ascii.eqb c "#"
      then (EmptyString, url)
      else let '(domain, rest) := splitnetloc url' in (String c domain, rest)
  end.

(** [re.match(r"\Av[a-fA-F0-9]+\..+\Z", hostname)], the hostname starting
    with [v]; the dot of a pattern matches no line feed. *)
Definition is_ipvfuture (hostname : string) : bool :=
  match Str.lstrip Ipaddress.is_hex_digit (Str.drop 1 hostname) with
  | String "."%char rest =>
      negb (Str.startswith "." (Str.drop 1 hostname))
      && negb (Str.is_empty rest)
      && negb (Str.contains Str.newline rest)
  | _ => false
  end.

Definition check_bracketed_host (hostname : string) : result unit :=
  if Str.startswith "v" hostname then
    if is_ipvfuture hostname then Ret () else Raise ValueError
  else
    ip ← Ipaddress.ip_address hostname;
    match ip with
    | Ipaddress.V4 _ => Raise ValueError
    | Ipaddress.V6 _ => Ret ()
    end.

Definition check_bracketed_netloc (netloc : string) : result unit :=
  let hostname_and_port := (Str.rpartition "@" netloc).2 in
  match Str.partition "[" hostname_and_port with
  | (before_bracket, Some bracketed) =>
      if negb (Str.is_empty before_bracket) then Raise ValueError
      else
        let '(hostname, port) := Str.partition "]" bracketed in
        let port := default EmptyString port in
        if negb (Str.is_empty port) && negb (Str.startswith ":" port)
        then Raise ValueError
        else check_bracketed_host hostname
  | (_, None) =>
      check_bracketed_host (Str.partition ":" hostname_and_port).1
  end.

(** The checks [urlsplit] makes on the network location it has cut. *)
Definition check_netloc (netloc : string) : result unit :=
  let opening := Str.contains "[" netloc in
  let closing := Str.contains "]" netloc in
  if opening && negb closing || closing && negb opening then Raise ValueError
  else if opening && closing then check_bracketed_netloc netloc
  else Ret ().

(** [urlsplit(url)]: scheme, network location, path, query, fragment. *)
Definition urlsplit (url : string)
    : result (string * string * string * string * string) :=
  let url := Str.lstrip is_c0_control_or_space url in
  let url := foldl (λ url b, Str.replace b EmptyString url) url
                   UNSAFE_URL_BYTES_TO_REMOVE in
  let '(scheme, url) := split_scheme url in
  '(netloc, url) ←
     (if Str.startswith "//" url then
        let '(netloc, url) := splitnetloc (Str.drop 2 url) in
        check_netloc netloc;;
        Ret (netloc, url)
      else Ret (EmptyString, url));
  let '(url, fragment) := Str.partition "#" url in
  let '(url, query) := Str.partition "?" url in
  Ret (scheme, netloc, url, default EmptyString query,
       default EmptyString fragment).

Definition uses_params : list string :=
  [EmptyString; "ftp"; "hdl"; "prospero"; "http"; "imap"; "https"; "shttp";
   "rtsp"; "rtspu"; "sip"; "sips"; "mms"; "sftp"; "tel"].

(** [_splitparams]: the parameters are what follows the first semicolon of
    the last segment of the path. *)
Definition splitparams (url : string) : string * string :=
  let '(head, segment) := Str.rpartition "/" url in
  match Str.partition ";" segment with
  | (name, Some params) =>
      (match head with
       | Some h => h +:+ "/" +:+ name
       | None => name
       end, params)
  | (_, None) => (url, EmptyString)
  end.

Record ParseResult : Type := {
  scheme : string;
  netloc : string;
  path : string;
  params : string;
  query : string;
  fragment : string
}.

Definition urlparse (url : string) : result ParseResult :=
  '(scheme, netloc, url, query, fragment) ← urlsplit url;
  let '(url, params) :=
    if bool_decide (scheme ∈ uses_params) && Str.contains ";" url
    then splitparams url
    else (url, EmptyString) in
  Ret {| scheme := scheme; netloc := netloc; path := url; params := params;
         query := query; fragment := fragment |}.

(** *** [parse_qsl] and [parse_qs] (defaults: [keep_blank_values=False],
    [strict_parsing=False], [separator='&']) *)

Definition parse_field (name_value : string) : list (string * string) :=
  if Str.is_empty name_value then []
  else
    let '(name, value) := Str.partition "=" name_value in
    let value := default EmptyString value in
    if Str.is_empty value then []
    else [(unquote_plus name, unquote_plus value)].

Definition parse_qsl (qs : string) : list (string * string) :=
  flat_map parse_field (Str.split "&" qs).

(** [parsed_result[name].append(value)] or [parsed_result[name] = [value]] *)
Definition add_value (parsed_result : gmap string (list string))
    (nv : string * string) : gmap string (list string) :=
  match parsed_result !! nv.1 with
  | Some values => <[nv.1 := values ++ [nv.2]]> parsed_result
  | None => <[nv.1 := [nv.2]]> parsed_result
  end.

Definition parse_qs (qs : string) : gmap string (list string) :=
  foldl add_value ∅ (parse_qsl qs).

End Urllib.

(** ** Python containers: [d[key]] and [l[0]] *)

Definition getitem {V} (d : gmap string V) (key : string) : result V :=
  match d !! key with
  | Some v => Ret v
  | None => Raise (KeyError key)
  end.

Definition first_item {V} (l : list V) : result V :=
  match l with
  | v :: _ => Ret v
  | [] => Raise IndexError
  end.

(** ** [json.dumps] of a flat dict of strings *)

Module Json.

Definition hex_digit (n : N) : ascii :=
  if (n <? 10)%N then ascii_of_N (48 + n) else ascii_of_N (87 + n).

(** [py_encode_basestring_ascii]: printable ASCII is copied, the quote and
    the backslash are escaped, the rest becomes a short escape or a
    [\u00XX] one.  The bodies this program serialises are ASCII; a byte
    above 127 is outside what the model follows. *)
Definition escape_char (c : ascii) : string :=
  let n := N_of_ascii c in
  if Ascii.eqb c Str.dquote then String Str.backslash (String Str.dquote EmptyString)
  else if Ascii.eqb c Str.backslash then String Str.backslash (String Str.backslash EmptyString)
  else if Ascii.eqb c "010" then "\n"
  else if Ascii.eqb c "013" then "\r"
  else if Ascii.eqb c "009" then "\t"
  else if Ascii.eqb c "012" then "\f"
  else if Ascii.eqb c "008" then "\b"
  else if (32 <=? n)%N && (n <=? 126)%N then String c EmptyString
  else "\u00" +:+ String (hex_digit (n / 16)) (String (hex_digit (n mod 16)) EmptyString).

Fixpoint escape (s : string) : string :=
  match s with
  | EmptyString => EmptyString
  | String c s' => escape_char c +:+ escape s'
  end.

Definition quoted (s : string) : string :=
  String Str.dquote (escape s +:+ String Str.dquote EmptyString).

Definition item (kv : string * string) : string :=
  quoted kv.1 +:+ ": " +:+ quoted kv.2.

Definition dumps (body : list (string * string)) : string :=
  "{" +:+ Str.join ", " (item <$> body) +:+ "}".

(** [json.loads] for the same shape, an object whose values are strings;
    [None] for any other text. *)
Inductive state : Type :=
  | Start
  | Opened
  | InKey (acc : list ascii) (escaped : bool)
  | AfterKey (key : string)
  | BeforeValue (key : string)
  | InValue (key : string) (acc : list ascii) (escaped : bool)
  | AfterValue
  | BeforeKey
  | Done.

Definition is_space (c : ascii) : bool :=
  Ascii.eqb c " " || Ascii.eqb c "009" || Ascii.eqb c "010" || Ascii.eqb c "013".

Definition unescape (c : ascii) : option ascii :=
  if Ascii.eqb c Str.dquote then Some Str.dquote
  else if Ascii.eqb c Str.backslash then Some Str.backslash
  else if Ascii.eqb c "/" then Some "/"%char
  else if Ascii.eqb c "n" then Some "010"%char
  else if Ascii.eqb c "r" then Some "013"%char
  else if Ascii.eqb c "t" then Some "009"%char
  else if Ascii.eqb c "f" then Some "012"%char
  else if Ascii.eqb c "b" then Some "008"%char
  else None.

(** One character inside a string literal: the characters read so far (last
    first) and whether a backslash is pending; [inl] when the literal goes
    on, [inr] with its text when the closing quote is read. *)
Definition in_string (acc : list ascii) (escaped : bool) (c : ascii)
    : option (list ascii * bool + string) :=
  if escaped then d ← unescape c; Some (inl (d :: acc, false))
  else if Ascii.eqb c Str.dquote then Some (inr (string_of_list_ascii (rev acc)))
  else if Ascii.eqb c Str.backslash then Some (inl (acc, true))
  else if (N_of_ascii c <? 32)%N then None
  else Some (inl (c :: acc, false)).

Fixpoint loads_from (st : state) (obj : gmap string string) (s : string)
    : option (gmap string string) :=
  match s with
  | EmptyString => match st with Done => Some obj | _ => None end
  | String c s' =>
      match st with
      | InKey acc escaped =>
          r ← in_string acc escaped c;
          match r with
          | inl (acc', escaped') => loads_from (InKey acc' escaped') obj s'
          | inr key => loads_from (AfterKey key) obj s'
          end
      | InValue key acc escaped =>
          r ← in_string acc escaped c;
          match r with
          | inl (acc', escaped') => loads_from (InValue key acc' escaped') obj s'
          | inr value => loads_from AfterValue (<[key := value]> obj) s'
          end
      | _ =>
          if is_space c then loads_from st obj s'
          else
            match st with
            | Start =>
                if Ascii.eqb c "{" then loads_from Opened obj s' else None
            | Opened =>
                if Ascii.eqb c Str.dquote then loads_from (InKey [] false) obj s'
                else if Ascii.eqb c "}" then loads_from Done obj s'
                else None
            | BeforeKey =>
                if Ascii.eqb c Str.dquote then loads_from (InKey [] false) obj s'
                else None
            | AfterKey key =>
                if Ascii.eqb c ":" then loads_from (BeforeValue key) obj s' else None
            | BeforeValue key =>
                if Ascii.eqb c Str.dquote then loads_from (InValue key [] false) obj s'
                else None
            | AfterValue =>
                if Ascii.eqb c "," then loads_from BeforeKey obj s'
                else if Ascii.eqb c "}" then loads_from Done obj s'
                else None
            | _ => None
            end
      end
  end.

Definition loads (text : string) : option (gmap string string) :=
  loads_from Start ∅ text.

End Json.

(** ** [re]: the patterns the harness compiles *)

Module Re.

Inductive class_item : Type :=
  | CChar (c : ascii)
  | CWord.

Inductive regex : Type :=
  | Void
  | Eps
  | Lit (c : ascii)
  | AnyChar
  | Class (items : list class_item)
  | Cat (r1 r2 : regex)
  | Alt (r1 r2 : regex)
  | Opt (r : regex)
  | Star (r : regex)
  | Plus (r : regex)
  | Group (r : regex).

Definition between (lo hi : N) (c : ascii) : bool :=
  (lo <=? N_of_ascii c)%N && (N_of_ascii c <=? hi)%N.

Definition is_alnum (c : ascii) : bool :=
  between 48 57 c || between 65 90 c || between 97 122 c.

(** [\w] on ASCII text: letters, digits and the underscore. *)
Definition is_word (c : ascii) : bool := is_alnum c || Ascii.eqb c "_".

(** An escaped ASCII character that is no letter and no digit stands for
    itself. *)
Definition is_punct (c : ascii) : bool :=
  between 0 127 c && negb (is_alnum c).

Definition in_item (c : ascii) (i : class_item) : bool :=
  match i with
  | CChar d => Ascii.eqb c d
  | CWord => is_word c
  end.

Definition in_class (items : list class_item) (c : ascii) : bool :=
  existsb (in_item c) items.

(** *** The language of a pattern *)

Inductive lang : regex → string → Prop :=
  | L_Eps : lang Eps EmptyString
  | L_Lit c : lang (Lit c) (String c EmptyString)
  | L_Any c : c ≠ Str.newline → lang AnyChar (String c EmptyString)
  | L_Class items c :
      in_class items c = true → lang (Class items) (String c EmptyString)
  | L_Cat r1 r2 s1 s2 :
      lang r1 s1 → lang r2 s2 → lang (Cat r1 r2) (s1 +:+ s2)
  | L_Alt_l r1 r2 s : lang r1 s → lang (Alt r1 r2) s
  | L_Alt_r r1 r2 s : lang r2 s → lang (Alt r1 r2) s
  | L_Opt_none r : lang (Opt r) EmptyString
  | L_Opt_some r s : lang r s → lang (Opt r) s
  | L_Star_nil r : lang (Star r) EmptyString
  | L_Star_more r s1 s2 :
      lang r s1 → lang (Star r) s2 → lang (Star r) (s1 +:+ s2)
  | L_Plus r s1 s2 :
      lang r s1 → lang (Star r) s2 → lang (Plus r) (s1 +:+ s2)
  | L_Group r s : lang r s → lang (Group r) s.

(** *** Matching by derivatives *)

Fixpoint nullable (r : regex) : bool :=
  match r with
  | Void | Lit _ | AnyChar | Class _ => false
  | Eps | Opt _ | Star _ => true
  | Cat r1 r2 => nullable r1 && nullable r2
  | Alt r1 r2 => nullable r1 || nullable r2
  | Plus r | Group r => nullable r
  end.

Definition one (b : bool) : regex := if b then Eps else Void.

Fixpoint deriv (c : ascii) (r : regex) : regex :=
  match r with
  | Void | Eps => Void
  | Lit d => one (Ascii.eqb c d)
  | AnyChar => one (negb (Ascii.eqb c Str.newline))
  | Class items => one (in_class items c)
  | Cat r1 r2 =>
      Alt (Cat (deriv c r1) r2) (if nullable r1 then deriv c r2 else Void)
  | Alt r1 r2 => Alt (deriv c r1) (deriv c r2)
  | Opt r => deriv c r
  | Star r => Cat (deriv c r) (Star r)
  | Plus r => Cat (deriv c r) (Star r)
  | Group r => deriv c r
  end.

(** *** Compiled patterns

    [dollar] records a final [$], which holds at the end of the text and
    just before a newline that ends it. *)
Record Pattern : Type := { re : regex; dollar : bool }.

Definition at_end (dollar : bool) (s : string) : bool :=
  if dollar then
    match s with
    | EmptyString => true
    | String c EmptyString => Ascii.eqb c Str.newline
    | _ => false
    end
  else true.

(** [Pattern.match]: some prefix of the text is in the language, and the
    final [$], if any, holds where that prefix stops. *)
Fixpoint match_from (dollar : bool) (r : regex) (s : string) : bool :=
  nullable r && at_end dollar s
  || match s with
     | EmptyString => false
     | String c s' => match_from dollar (deriv c r) s'
     end.

Definition pattern_match (p : Pattern) (s : string) : bool :=
  match_from (dollar p) (re p) s.

(** *** [re.compile] for the syntax the harness uses

    Literals, [\]-escaped punctuation, [\w], [.], bracketed classes of
    characters and [\w], groups, the postfix [?], [*], [+] and a final
    [$].  Anything else gives [None]: the pattern is outside the model. *)

Inductive mode : Type :=
  | Normal
  | Escaped
  | InClass (items : list class_item)
  | ClassEscaped (items : list class_item).

Definition seq (atoms : list regex) : regex := foldr Cat Eps atoms.

Definition quantify (f : regex → regex) (q : bool) (cur : list regex)
    : option (list regex) :=
  match q, cur with
  | false, a :: rest => Some (f a :: rest)
  | _, _ => None
  end.

Inductive ckind : Type :=
  | KBackslash | KOpen | KClose | KOpt | KStar | KPlus | KBracket | KDot
  | KDollar | KUnsupported | KPlain.

Definition classify (c : ascii) : ckind :=
  match c with
  | "\" => KBackslash
  | "(" => KOpen
  | ")" => KClose
  | "?" => KOpt
  | "*" => KStar
  | "+" => KPlus
  | "[" => KBracket
  | "." => KDot
  | "$" => KDollar
  | "|" | "^" | "{" | "}" | "]" => KUnsupported
  | _ => KPlain
  end%char.

(** [cur] holds the atoms of the group being read, last first; [stack] the
    enclosing groups; [q] tells that the last atom already has a
    quantifier. *)
Fixpoint parse (m : mode) (q : bool) (cur : list regex)
    (stack : list (list regex)) (s : string) : option Pattern :=
  match s with
  | EmptyString =>
      match m, stack with
      | Normal, [] => Some {| re := seq (rev cur); dollar := false |}
      | _, _ => None
      end
  | String c s' =>
      match m with
      | Normal =>
          match classify c with
          | KBackslash => parse Escaped q cur stack s'
          | KOpen => parse Normal false [] (cur :: stack) s'
          | KClose =>
              match stack with
              | parent :: stack' =>
                  parse Normal false (Group (seq (rev cur)) :: parent) stack' s'
              | [] => None
              end
          | KOpt => cur' ← quantify Opt q cur; parse Normal true cur' stack s'
          | KStar => cur' ← quantify Star q cur; parse Normal true cur' stack s'
          | KPlus => cur' ← quantify Plus q cur; parse Normal true cur' stack s'
          | KBracket => parse (InClass []) q cur stack s'
          | KDot => parse Normal false (AnyChar :: cur) stack s'
          | KDollar =>
              match s', stack with
              | EmptyString, [] => Some {| re := seq (rev cur); dollar := true |}
              | _, _ => None
              end
          | KUnsupported => None
          | KPlain => parse Normal false (Lit c :: cur) stack s'
          end
      | Escaped =>
          if Ascii.eqb c "w" then parse Normal false (Class [CWord] :: cur) stack s'
          else if is_punct c then parse Normal false (Lit c :: cur) stack s'
          else None
      | InClass items =>
          match c with
          | "]"%char =>
              match items with
              | [] => None
              | _ => parse Normal false (Class (rev items) :: cur) stack s'
              end
          | "\"%char => parse (ClassEscaped items) q cur stack s'
          | "-"%char =>
              match items, s' with
              | [], _ | _, String "]" _ =>
                  parse (InClass (CChar c :: items)) q cur stack s'
              | _, _ => None
              end
          | "^"%char =>
              match items with
              | [] => None
              | _ => parse (InClass (CChar c :: items)) q cur stack s'
              end
          | "["%char => None
          | _ => parse (InClass (CChar c :: items)) q cur stack s'
          end
      | ClassEscaped items =>
          if Ascii.eqb c "w" then parse (InClass (CWord :: items)) q cur stack s'
          else if is_punct c then parse (InClass (CChar c :: items)) q cur stack s'
          else None
      end
  end.

Definition compile (pattern : string) : option Pattern :=
  parse Normal false [] [] pattern.

(** The characters a pattern takes as themselves once [replace('.', r'\.')]
    has escaped the dots. *)
Definition is_literal (c : ascii) : bool :=
  match classify c with
  | KPlain | KDot => true
  | _ => false
  end.

End Re.

(** ** The mock provider endpoint ([test_social.py]) *)

Record PreparedRequest : Type := { method : string; url : string }.

(** One user-info body: the keys in the order the literal gives them. *)
Definition user_1 : list (string * string) :=
  [("id", "00001"); ("name", "Foo Bar"); ("email", "foo@bar.com")].

Definition user_2 : list (string * string) :=
  [("id", "00002"); ("name", "Pooh Bear"); ("email", "winnie@100acre.net")].

Definition USER_INFO : gmap string (list (string * string)) :=
  <["user_2" := user_2]> (<["user_1" := user_1]> ∅).

Definition headers : Type := gmap string string.

(** [parse_qs(urlparse(request.url).query)['access_token'][0]] *)
Definition request_token (request : PreparedRequest) : result string :=
  parsed ← Urllib.urlparse (url request);
  values ← getitem (Urllib.parse_qs (Urllib.query parsed)) "access_token";
  first_item values.

Definition invalid_token_body : list (string * string) :=
  [("errors", "Invalid Token")].

Definition respond_to (request : PreparedRequest) : result (nat * headers * string) :=
  token ← request_token request;
  let status := 200 in
  let '(status, body) :=
    match getitem USER_INFO token with
    | Ret body => (status, body)
    | Raise _ => (401, invalid_token_body)
    end in
  Ret (status, ∅, Json.dumps body).

(** [responses.RequestsMock] with the one callback [mocked] registers: a GET
    whose URL the endpoint pattern matches is answered by [respond_to]; any
    other request finds no registered response. *)
Definition mocked (endpoint : Re.Pattern) (request : PreparedRequest)
    : result (nat * headers * string) :=
  if String.eqb (method request) "GET" && Re.pattern_match endpoint (url request)
  then respond_to request
  else Raise ConnectionError.

Definition QUERY_STRINGS_RE : string :=
  "\?([\w-]+(=[\w-]*)?(&[\w-]+(=[\w-]*)?)*)?$".

(** [re.compile(base_url + QUERY_STRINGS_RE)] with
    [base_url = USER_DATA_URL.replace('.', r'\.')] *)
Definition mock_url (USER_DATA_URL : string) : option Re.Pattern :=
  let base_url := Str.replace "." "\." USER_DATA_URL in
  Re.compile (base_url +:+ QUERY_STRINGS_RE).

(** What [QUERY_STRINGS_RE] compiles to, piece by piece: the class of word
    characters and the hyphen, the optional group of an equals sign and a
    value, the repeated group of an ampersand and one more parameter, and
    the question mark followed by the whole optional group. *)
Definition field_class : Re.regex := Re.Class [Re.CWord; Re.CChar "-"].
Definition value_part : Re.regex :=
  Re.Opt (Re.Group (Re.seq [Re.Lit "="; Re.Star field_class])).
Definition more_params : Re.regex :=
  Re.Star (Re.Group (Re.seq [Re.Lit "&"; Re.Plus field_class; value_part])).
Definition query_atoms : list Re.regex :=
  [Re.Lit "?";
   Re.Opt (Re.Group (Re.seq [Re.Plus field_class; value_part; more_params]))].

(** A query string of [key=value] pairs: the text the claims on the URL
    pattern speak of. *)
Definition is_field_char (c : ascii) : bool := Re.is_word c || Ascii.eqb c "-".

Definition key_value (kv : string * string) : string := kv.1 +:+ "=" +:+ kv.2.

Definition query_string (params : list (string * string)) : string :=
  Str.join "&" (key_value <$> params).

Definition well_formed_param (kv : string * string) : Prop :=
  kv.1 ≠ EmptyString ∧
  Str.forallb is_field_char kv.1 = true ∧
  Str.forallb is_field_char kv.2 = true.

(** An endpoint, if its pattern compiles, matches the URL [u]. *)
Definition endpoint_matches (endpoint : option Re.Pattern) (u : string) : Prop :=
  ∃ pattern, endpoint = Some pattern ∧ Re.pattern_match pattern u = true.

(** [facebook.FacebookOAuth2.USER_DATA_URL] belongs to the library, so the
    class takes it as a parameter. *)
Module TestFacebook.
Definition provider : string := "facebook".
Definition mock_url (USER_DATA_URL : string) : option Re.Pattern :=
  mock_url USER_DATA_URL.
End TestFacebook.

Module TestGoogle.
Definition provider : string := "google-oauth2".
Definition USER_DATA_URL : string := "https://www.googleapis.com/plus/v1/people/me".
Definition mock_url : option Re.Pattern := mock_url USER_DATA_URL.
End TestGoogle.

(** The values a list of pairs gives to one name, in order. *)
Definition values_for (name : string) (pairs : list (string * string))
    : list string :=
  (filter (λ nv, nv.1 = name) pairs).*2.

(** ** Reading a URL's query parameters

    The words used below for "the request's [access_token] parameter",
    stated on the text of the URL rather than on the dictionary [parse_qs]
    builds.  A field of the query (the text between two ampersands) gives the
    parameter [name] the value [value] when it has an equals sign with a
    non-empty text after it, and the two sides decode to [name] and
    [value]. *)

Definition is_param (name value field : string) : Prop :=
  ∃ raw_name raw_value,
    Str.partition "=" field = (raw_name, Some raw_value) ∧
    raw_value ≠ EmptyString ∧
    Urllib.unquote_plus raw_name = name ∧
    Urllib.unquote_plus raw_value = value.

Definition names_param (name field : string) : Prop :=
  ∃ value, is_param name value field.

(** The first field of [u]'s query that names [access_token] gives it the
    value [token]. *)
Definition carries_token (u token : string) : Prop :=
  ∃ parsed before field after,
    Urllib.urlparse u = Ret parsed ∧
    Str.split "&" (Urllib.query parsed) = before ++ field :: after ∧
    Forall (λ f, ¬ names_param "access_token" f) before ∧
    is_param "access_token" token field.

Definition known_good (token : string) : Prop := is_Some (USER_INFO !! token).

(** ** [settings.py] *)

Module Settings.

Definition AUTHENTICATION_BACKENDS : list string :=
  ["social_core.backends.google.GoogleOAuth2";
   "social_core.backends.facebook.FacebookOAuth2";
   "django.contrib.auth.backends.ModelBackend"].

Definition SOCIAL_AUTH_USERNAME_IS_FULL_EMAIL : bool := true.

End Settings.

(** ** The login path

    The view behind [POST /social/{provider}/], the library pipeline it runs
    and the user store are not among the repository's files; the tests only
    call them.  They are modelled from sections 3 to 7 of the specification,
    on top of the settings and the mock endpoint above. *)

Module Login.

(** Modelled from the spec: the closed set of provider identifiers (3, 9). *)
Inductive ProviderIdentifier : Type := Facebook | GoogleOAuth2.

(** The identifier each test class posts to, and the backend class
    [AUTHENTICATION_BACKENDS] lists for it. *)
Definition identifier (p : ProviderIdentifier) : string :=
  match p with
  | Facebook => TestFacebook.provider
  | GoogleOAuth2 => TestGoogle.provider
  end.

Definition backend (p : ProviderIdentifier) : string :=
  match p with
  | Facebook => "social_core.backends.facebook.FacebookOAuth2"
  | GoogleOAuth2 => "social_core.backends.google.GoogleOAuth2"
  end.

(** Modelled from the spec: the records of the data model (3). *)
Record ExternalIdentity : Type := {
  provider : ProviderIdentifier;
  external_id : string;
  email : string;
  display_name : string
}.

Record UserAccount : Type := {
  local_id : nat;
  username : string;
  user_email : string;
  user_display_name : string;
  created_at : nat
}.

Record AccessToken : Type := {
  value : string;
  owner : nat;
  issued_at : nat
}.

(** The user store, the issuer's source of fresh values, and what the
    request has done so far: the outbound calls and the number of store
    writes. *)
Record World : Type := {
  accounts : list UserAccount;
  tokens : list AccessToken;
  next_id : nat;
  entropy : nat;
  outbound : list PreparedRequest;
  writes : nat
}.

(** Modelled from the spec: the adapter's errors (4.2), the reasons of a
    rejection (7) and the states of the orchestrator (4.5). *)
Inductive VerifyError : Type := TokenInvalidError | ProviderUnavailableError.

Inductive Reason : Type :=
  | UnknownProvider
  | InvalidToken
  | ProviderUnavailable
  | StoreFailure.

Inductive Stage : Type :=
  | ReceivedRequest (provider_name token : string)
  | ProviderResolved (adapter : ProviderIdentifier) (token : string)
  | IdentityVerified (ident : ExternalIdentity) (token : string)
  | AccountResolved (account : UserAccount) (token : string)
  | TokenIssued (token : AccessToken)
  | Rejected (reason : Reason).

Record Response : Type := {
  status_code : nat;
  data : gmap string string
}.

(** Modelled from the spec: ProviderRegistry (4.1), absent from the
    repository's files.  The lookup is an exact, case-sensitive match of the
    identifier against the providers whose backend the deployment lists. *)
Definition enabled (p : ProviderIdentifier) : bool :=
  bool_decide (backend p ∈ Settings.AUTHENTICATION_BACKENDS).

(** Modelled from the spec: [resolve] of the ProviderRegistry (4.1); [None]
    is its NotRegisteredError. *)
Definition resolve (provider_name : string) : option ProviderIdentifier :=
  List.find (λ p, String.eqb (identifier p) provider_name && enabled p)
            [Facebook; GoogleOAuth2].

(** Modelled from the spec: the account name policy of the data model (3),
    [username] is the full email; the setting that selects it is the
    repository's, and without it the name is the part before the at sign. *)
Definition username_for (address : string) : string :=
  if Settings.SOCIAL_AUTH_USERNAME_IS_FULL_EMAIL then address
  else (Str.partition "@" address).1.

(** Modelled from the spec: IdentityReconciler (4.3), absent from the
    repository's files.  [refresh] looks the account up by email and, when
    there is one, sets its name from the identity. *)
Fixpoint refresh (ident : ExternalIdentity) (l : list UserAccount)
    : option (UserAccount * list UserAccount) :=
  match l with
  | [] => None
  | a :: rest =>
      if String.eqb (user_email a) (email ident) then
        let a' := {| local_id := local_id a; username := username a;
                     user_email := user_email a;
                     user_display_name := display_name ident;
                     created_at := created_at a |} in
        Some (a', a' :: rest)
      else
        '(found, rest') ← refresh ident rest;
        Some (found, a :: rest')
  end.

(** Modelled from the spec: [resolve] of the IdentityReconciler (4.3): the
    account found by email with its name refreshed, or a new account whose
    username is derived from the email. *)
Definition reconcile (now : nat) (ident : ExternalIdentity) (w : World)
    : UserAccount * World :=
  match refresh ident (accounts w) with
  | Some (account, accounts') =>
      (account,
       {| accounts := accounts'; tokens := tokens w; next_id := next_id w;
          entropy := entropy w; outbound := outbound w; writes := S (writes w) |})
  | None =>
      let account := {| local_id := next_id w;
                        username := username_for (email ident);
                        user_email := email ident;
                        user_display_name := display_name ident;
                        created_at := now |} in
      (account,
       {| accounts := accounts w ++ [account]; tokens := tokens w;
          next_id := S (next_id w); entropy := entropy w;
          outbound := outbound w; writes := S (writes w) |})
  end.

(** Modelled from the spec: TokenIssuer (4.4), absent from the repository's
    files.  The source of entropy is a counter whose every draw is new; a
    draw equal to the token the caller presented is passed over. *)
Definition mint (n : nat) : string := NilEmpty.string_of_uint (Nat.to_uint n).

(** Modelled from the spec: [issue] of the TokenIssuer (4.4): a new value,
    never the presented token, stored with its owner. *)
Definition issue (now : nat) (account : UserAccount) (presented : string)
    (w : World) : AccessToken * World :=
  let n := if String.eqb (mint (entropy w)) presented
           then S (entropy w) else entropy w in
  let token := {| value := mint n; owner := local_id account; issued_at := now |} in
  (token,
   {| accounts := accounts w; tokens := tokens w ++ [token];
      next_id := next_id w; entropy := S n; outbound := outbound w;
      writes := S (writes w) |}).

Section Orchestrator.

(** The library's Facebook endpoint, and the network the adapters call: in
    the tests, [mocked] with the pattern of the test class. *)
Variable FACEBOOK_USER_DATA_URL : string.
Variable network : PreparedRequest → result (nat * headers * string).

(** Modelled from the spec: the user-info endpoint each adapter knows (4.2);
    Google's is the URL [TestGoogle] mocks. *)
Definition user_info_url (p : ProviderIdentifier) : string :=
  match p with
  | Facebook => FACEBOOK_USER_DATA_URL
  | GoogleOAuth2 => TestGoogle.USER_DATA_URL
  end.

(** Modelled from the spec: ProviderAdapter (4.2), absent from the
    repository's files.  One GET of the user-info URL with the token as the
    [access_token] query parameter; a 2xx body is read as the identity, a
    body without an email is an invalid token, any other non-2xx status
    below 500 is an invalid token, and no answer, a body that cannot be
    read or a 5xx status is an unavailable provider. *)
Definition parse_identity (p : ProviderIdentifier) (text : string)
    : VerifyError + ExternalIdentity :=
  match Json.loads text with
  | None => inl ProviderUnavailableError
  | Some obj =>
      match obj !! "email" with
      | None => inl TokenInvalidError
      | Some address =>
          if Str.is_empty address then inl TokenInvalidError
          else
            match obj !! "id" with
            | None => inl ProviderUnavailableError
            | Some uid =>
                inr {| provider := p; external_id := uid; email := address;
                       display_name := default EmptyString (obj !! "name") |}
            end
      end
  end.

(** Modelled from the spec: the adapter's outbound call (6), a GET with the
    token as the [access_token] query parameter, quoted. *)
Definition user_info_request (p : ProviderIdentifier) (token : string)
    : PreparedRequest :=
  {| method := "GET";
     url := user_info_url p +:+ "?access_token=" +:+ Urllib.quote token |}.

(** Modelled from the spec: [verify] of the ProviderAdapter (4.2): exactly
    one outbound call, recorded in the world. *)
Definition verify (p : ProviderIdentifier) (token : string) (w : World)
    : (VerifyError + ExternalIdentity) * World :=
  let request := user_info_request p token in
  let w' := {| accounts := accounts w; tokens := tokens w; next_id := next_id w;
               entropy := entropy w; outbound := outbound w ++ [request];
               writes := writes w |} in
  match network request with
  | Raise _ => (inl ProviderUnavailableError, w')
  | Ret (status, _, text) =>
      if (200 <=? status) && (status <? 300) then (parse_identity p text, w')
      else if 500 <=? status then (inl ProviderUnavailableError, w')
      else (inl TokenInvalidError, w')
  end.

(** Modelled from the spec: LoginOrchestrator (4.5), absent from the
    repository's files: the four transitions of its state machine.  The
    store of this model does not fail, so no transition ends in
    [StoreFailure]. *)
Definition step (now : nat) (stage : Stage) (w : World) : Stage * World :=
  match stage with
  | ReceivedRequest provider_name token =>
      match resolve provider_name with
      | Some adapter => (ProviderResolved adapter token, w)
      | None => (Rejected UnknownProvider, w)
      end
  | ProviderResolved adapter token =>
      match verify adapter token w with
      | (inr ident, w') => (IdentityVerified ident token, w')
      | (inl TokenInvalidError, w') => (Rejected InvalidToken, w')
      | (inl ProviderUnavailableError, w') => (Rejected ProviderUnavailable, w')
      end
  | IdentityVerified ident token =>
      let '(account, w') := reconcile now ident w in
      (AccountResolved account token, w')
  | AccountResolved account token =>
      let '(issued, w') := issue now account token w in
      (TokenIssued issued, w')
  | TokenIssued _ | Rejected _ => (stage, w)
  end.

(** Modelled from the spec: the orchestrator taking [n] transitions. *)
Fixpoint run (now : nat) (n : nat) (stage : Stage) (w : World) : Stage * World :=
  match n with
  | O => (stage, w)
  | S n' => let '(stage', w') := step now stage w in run now n' stage' w'
  end.

(** Modelled from the spec: the outcomes of [POST /social/{provider}/]
    (6, 7): 200 with the new token, 404 for a provider that is not enabled,
    401 for a token the provider rejects; the unavailable provider and the
    store failure get the server-side codes 503 and 500. *)
Definition error_payload (detail : string) : gmap string string :=
  {[ "error" := detail ]}.

(** Modelled from the spec: the response of each terminal state (6). *)
Definition respond (stage : Stage) : Response :=
  match stage with
  | TokenIssued issued =>
      {| status_code := 200; data := {[ "token" := value issued ]} |}
  | Rejected UnknownProvider =>
      {| status_code := 404; data := error_payload "not found" |}
  | Rejected InvalidToken =>
      {| status_code := 401; data := error_payload "invalid token" |}
  | Rejected ProviderUnavailable =>
      {| status_code := 503; data := error_payload "provider unavailable" |}
  | _ => {| status_code := 500; data := error_payload "server error" |}
  end.

(** Modelled from the spec: one request to [POST /social/{provider}/],
    from [ReceivedRequest] through the four transitions to its response. *)
Definition login (now : nat) (provider_name token : string) (w : World)
    : Response * World :=
  let '(stage, w') := run now 4 (ReceivedRequest provider_name token) w in
  (respond stage, w').

End Orchestrator.

(** What the claims on the login path ask of the library's endpoint URL: its
    characters stand for themselves in the pattern once dots are escaped,
    and it has no fragment. *)
Definition plain_endpoint (base : string) : Prop :=
  Str.forallb Re.is_literal base = true ∧ Str.contains "#" base = false.

(** [data[key]] on a [USER_INFO] entry. *)
Definition lookup_field (key : string) (body : list (string * string))
    : option string :=
  (list_to_map body : gmap string string) !! key.

(** The accounts of a store that have a given email. *)
Definition accounts_with (address : string) (w : World) : list UserAccount :=
  filter (λ a, user_email a = address) (accounts w).

Definition empty_world : World :=
  {| accounts := []; tokens := []; next_id := 0; entropy := 0;
     outbound := []; writes := 0 |}.

(** The world after one call to a provider and nothing else. *)
Definition made_call (fb : string) (p : ProviderIdentifier) (token : string)
    (w : World) : World :=
  {| accounts := accounts w; tokens := tokens w; next_id := next_id w;
     entropy := entropy w;
     outbound := outbound w ++ [user_info_request fb p token];
     writes := writes w |}.

(** The network of a test class: [mocked(self.mock_url)]; a request finds no
    registered response when the pattern does not compile. *)
Definition harness (endpoint : option Re.Pattern) (request : PreparedRequest)
    : result (nat * headers * string) :=
  match endpoint with
  | Some pattern => mocked pattern request
  | None => Raise ConnectionError
  end.

Definition test_mock_url (fb : string) (p : ProviderIdentifier)
    : option Re.Pattern :=
  match p with
  | Facebook => TestFacebook.mock_url fb
  | GoogleOAuth2 => TestGoogle.mock_url
  end.

Definition test_network (fb : string) (p : ProviderIdentifier)
    : PreparedRequest → result (nat * headers * string) :=
  harness (test_mock_url fb p).

(** A value of the library's Facebook endpoint for the closed examples. *)
Definition sample_facebook_url : string := "https://graph.facebook.com/me".

End Login.

(** ** Shapes of URLs

    The texts the properties below speak of.  A field is valid when it is a
    non-empty key of word characters and hyphens, alone or followed by an
    equals sign and a value of such characters; a query is valid when it is
    empty or all its fields are; an endpoint URL is the base, a question
    mark and a valid query, with at most one newline after it. *)

Definition valid_field (f : string) : bool :=
  let '(key, value) := Str.partition "=" f in
  negb (Str.is_empty key) && Str.forallb is_field_char key
  && Str.forallb is_field_char (default EmptyString value).

Definition valid_query (q : string) : bool :=
  Str.is_empty q || forallb valid_field (Str.split "&" q).

Definition endpoint_url (base u : string) : Prop :=
  ∃ q, valid_query q = true
       ∧ (u = base +:+ "?" +:+ q
          ∨ u = base +:+ "?" +:+ q +:+ String Str.newline EmptyString).

(** A text given by its pieces between double quotes, and the three
    bodies [respond_to] can return, as [json.dumps] writes them. *)
Definition between_quotes (pieces : list string) : string :=
  Str.join (String Str.dquote EmptyString) pieces.

Definition user_1_json : string :=
  between_quotes ["{"; "id"; ": "; "00001"; ", "; "name"; ": "; "Foo Bar"; ", ";
                  "email"; ": "; "foo@bar.com"; "}"].

Definition user_2_json : string :=
  between_quotes ["{"; "id"; ": "; "00002"; ", "; "name"; ": "; "Pooh Bear"; ", ";
                  "email"; ": "; "winnie@100acre.net"; "}"].

Definition invalid_token_json : string :=
  between_quotes ["{"; "errors"; ": "; "Invalid Token"; "}"].

(** The text [urlsplit] works on: the URL without its leading blanks and
    without the characters [urlsplit] deletes; and the query of a text, from
    its first question mark that comes before any hash up to the first
    hash. *)
Definition without_unsafe (s : string) : string :=
  foldl (λ url b, Str.replace b EmptyString url) s
        Urllib.UNSAFE_URL_BYTES_TO_REMOVE.

Definition cleaned (u : string) : string :=
  without_unsafe (Str.lstrip Urllib.is_c0_control_or_space u).

Definition query_text (s : string) : string :=
  default EmptyString (Str.partition "?" (Str.partition "#" s).1).2.

(** A text with no tab, carriage return or line feed, and one with no
    bracket. *)
Definition is_safe (c : ascii) : bool :=
  negb (bool_decide (c ∈ Urllib.UNSAFE_URL_BYTES_TO_REMOVE)).

Definition no_bracket (s : string) : bool :=
  negb (Str.contains "[" s) && negb (Str.contains "]" s).

(** A field that gives [access_token] no value and holds neither an
    ampersand nor a hash; the text of such fields, each followed by an
    ampersand; and a text that is empty or starts a new field or the
    fragment. *)
Definition skipped_field (f : string) : bool :=
  negb (Str.contains "&" f) && negb (Str.contains "#" f)
  && match Str.partition "=" f with
     | (name, Some value) =>
         Str.is_empty value
         || negb (String.eqb (Urllib.unquote_plus name) "access_token")
     | (_, None) => true
     end.

Fixpoint leading_fields (fields : list string) : string :=
  match fields with
  | [] => EmptyString
  | f :: rest => f +:+ "&" +:+ leading_fields rest
  end.

Definition cut_off (tail : string) : bool :=
  match tail with
  | EmptyString => true
  | String c _ => Ascii.eqb c "&" || Ascii.eqb c "#"
  end.

(** The characters [json.dumps] writes as themselves or with a short escape,
    not as a [\u] escape; a text of such characters; the dict a list of
    pairs builds, key by key. *)
Definition json_plain (c : ascii) : bool :=
  let n := N_of_ascii c in
  (32 <=? n)%N && (n <=? 126)%N
  || Ascii.eqb c "008" || Ascii.eqb c "009" || Ascii.eqb c "010"
  || Ascii.eqb c "012" || Ascii.eqb c "013".

Definition plain_pair (kv : string * string) : Prop :=
  Str.forallb json_plain kv.1 = true ∧ Str.forallb json_plain kv.2 = true.

Definition dict_of (body : list (string * string)) : gmap string string :=
  foldl (λ d kv, <[kv.1 := kv.2]> d) ∅ body.

(** * Properties *)

(** ** Strings *)

Module StrFacts.
Import Str.

Lemma app_cons c a b : String c a +:+ b = String c (a +:+ b).
Proof. reflexivity. Qed.

Lemma app_nil_r s : s +:+ EmptyString = s.
Proof. induction s as [|c s IH]; [done|]. by rewrite app_cons, IH. Qed.

Lemma app_assoc a b c : (a +:+ b) +:+ c = a +:+ (b +:+ c).
Proof. induction a as [|x a IH]; [done|]. by rewrite !app_cons, IH. Qed.

Lemma is_empty_true s : is_empty s = true ↔ s = EmptyString.
Proof. by destruct s. Qed.

Lemma is_empty_false s : is_empty s = false ↔ s ≠ EmptyString.
Proof. by destruct s. Qed.

Lemma contains_app c a b : contains c (a +:+ b) = contains c a || contains c b.
Proof.
  induction a as [|x a IH]; [done|].
  rewrite app_cons. simpl. by rewrite IH, orb_assoc.
Qed.

Lemma forallb_app p a b : forallb p (a +:+ b) = forallb p a && forallb p b.
Proof.
  induction a as [|x a IH]; [done|].
  rewrite app_cons. simpl. by rewrite IH, andb_assoc.
Qed.

(** A class of characters that leaves [c] out holds no [c]. *)
Lemma forallb_contains p c s :
  p c = false → forallb p s = true → contains c s = false.
Proof.
  intros Hc. induction s as [|x s IH]; [done|].
  simpl. intros [Hx Hs]%andb_true_iff.
  rewrite (IH Hs), orb_false_r.
  apply Ascii.eqb_neq. intros ->. congruence.
Qed.

Lemma partition_found sep a b :
  contains sep a = false →
  partition sep (a +:+ String sep b) = (a, Some b).
Proof.
  induction a as [|x a IH]; simpl.
  - intros _. by rewrite Ascii.eqb_refl.
  - intros [Hx Ha]%orb_false_iff. by rewrite Hx, (IH Ha).
Qed.

Lemma partition_missing sep a :
  contains sep a = false → partition sep a = (a, None).
Proof.
  induction a as [|x a IH]; simpl; [done|].
  intros [Hx Ha]%orb_false_iff. by rewrite Hx, (IH Ha).
Qed.

Lemma split_fields_found sep a b :
  contains sep a = false →
  split_fields sep (a +:+ String sep b) = (a, split sep b).
Proof.
  unfold split. induction a as [|x a IH]; simpl.
  - intros _. rewrite Ascii.eqb_refl. by destruct (split_fields sep b).
  - intros [Hx Ha]%orb_false_iff.
    rewrite (IH Ha), Hx. by destruct (split_fields sep b).
Qed.

Lemma split_found sep a b :
  contains sep a = false → split sep (a +:+ String sep b) = a :: split sep b.
Proof.
  intros Ha. unfold split at 1. by rewrite (split_fields_found _ _ _ Ha).
Qed.

Lemma split_missing sep a : contains sep a = false → split sep a = [a].
Proof.
  unfold split. induction a as [|x a IH]; simpl; [done|].
  intros [Hx Ha]%orb_false_iff. specialize (IH Ha).
  destruct (split_fields sep a) as [f fs]. rewrite Hx. congruence.
Qed.

End StrFacts.

(** ** More on strings *)

Module TextFacts.
Import Str StrFacts.

Lemma app_inv_head a x y : a +:+ x = a +:+ y → x = y.
Proof.
  induction a as [|c a IH]; [done|]. rewrite !app_cons. intros [= H]. auto.
Qed.

Lemma partition_some sep s a b :
  partition sep s = (a, Some b) →
  s = a +:+ String sep b ∧ contains sep a = false.
Proof.
  revert a. induction s as [|c s IH]; intros a; simpl; [done|].
  destruct (Ascii.eqb_spec c sep) as [->|Hc].
  - by intros [= <- <-].
  - destruct (partition sep s) as [a' [b'|]] eqn:E; intros [= <- <-].
    destruct (IH a' eq_refl) as [-> Ha]. simpl.
    split; [done|]. rewrite Ha. by apply Ascii.eqb_neq in Hc as ->.
Qed.

Lemma partition_none sep s a :
  partition sep s = (a, None) → s = a ∧ contains sep s = false.
Proof.
  revert a. induction s as [|c s IH]; intros a; simpl.
  - by intros [= <-].
  - destruct (Ascii.eqb_spec c sep) as [->|Hc]; [done|].
    destruct (partition sep s) as [a' [b'|]] eqn:E; intros [= <-].
    destruct (IH a' eq_refl) as [-> Ha].
    split; [done|]. by rewrite Ha.
Qed.

(** Cutting at [sep] looks only at the text from the first [sep] on. *)
Lemma partition_app sep a b :
  contains sep a = false →
  partition sep (a +:+ b) = (a +:+ (partition sep b).1, (partition sep b).2).
Proof.
  induction a as [|c a IH]; simpl.
  - intros _. change (EmptyString +:+ b) with b.
    destruct (partition sep b) as [x y]. done.
  - intros [Hc Ha]%orb_false_iff. rewrite Hc, (IH Ha). done.
Qed.

Lemma partition_fst_lacks sep s : contains sep (partition sep s).1 = false.
Proof.
  destruct (partition sep s) as [a [b|]] eqn:E; simpl.
  - by apply partition_some in E as [_ ?].
  - by apply partition_none in E as [<- ?].
Qed.

Lemma join_cons_char sep c f fs :
  join sep (String c f :: fs) = String c (join sep (f :: fs)).
Proof. by destruct fs. Qed.

(** [sep.join(s.split(sep)) == s] *)
Lemma join_split sep s : join (String sep EmptyString) (split sep s) = s.
Proof.
  unfold split. induction s as [|c s IH]; [done|]. simpl.
  destruct (split_fields sep s) as [f fs].
  destruct (Ascii.eqb_spec c sep) as [->|Hc].
  - change (join (String sep EmptyString) (EmptyString :: f :: fs))
      with (String sep (join (String sep EmptyString) (f :: fs))).
    by rewrite IH.
  - by rewrite join_cons_char, IH.
Qed.

Lemma split_lacks sep s : Forall (λ f, contains sep f = false) (split sep s).
Proof.
  unfold split. induction s as [|c s IH]; simpl; [by repeat constructor|].
  destruct (split_fields sep s) as [f fs].
  apply Forall_cons in IH as [Hf Hfs].
  destruct (Ascii.eqb_spec c sep) as [->|Hc]; repeat constructor; try done.
  simpl. rewrite Hf. by apply Ascii.eqb_neq in Hc as ->.
Qed.

Lemma split_cons sep f s :
  contains sep f = false →
  split sep (f +:+ String sep s) = f :: split sep s.
Proof. apply split_found. Qed.

Lemma contains_forallb p c s :
  p c = false → contains c s = true → forallb p s = false.
Proof.
  intros Hp. induction s as [|d s IH]; simpl; [done|].
  destruct (Ascii.eqb_spec d c) as [->|_]; simpl.
  - intros _. by rewrite Hp.
  - intros H. rewrite (IH H). apply andb_false_r.
Qed.

End TextFacts.

(** ** What [urlsplit] cuts *)

Module SplitFacts.
Import Str Urllib StrFacts TextFacts.

Lemma contains_lstrip c chars s :
  contains c s = false → contains c (lstrip chars s) = false.
Proof.
  induction s as [|x s IH]; [done|]. simpl.
  intros [Hx Hs]%orb_false_iff.
  destruct (chars x); [by apply IH|]. simpl. by rewrite Hx, Hs.
Qed.

Lemma lstrip_app_stop chars a c b :
  chars c = false →
  lstrip chars (a +:+ String c b) = lstrip chars a +:+ String c b.
Proof.
  intros Hc. induction a as [|x a IH]; simpl; [by rewrite Hc|].
  by destruct (chars x).
Qed.

Lemma replace_empty_cons b c s :
  replace b EmptyString (String c s)
  = if Ascii.eqb c b then replace b EmptyString s
    else String c (replace b EmptyString s).
Proof. simpl. by destruct (Ascii.eqb c b). Qed.

Lemma replace_empty_app b x y :
  replace b EmptyString (x +:+ y)
  = replace b EmptyString x +:+ replace b EmptyString y.
Proof.
  induction x as [|c x IH]; [done|].
  rewrite app_cons, !replace_empty_cons, IH. by destruct (Ascii.eqb c b).
Qed.

Lemma contains_replace_empty c b s :
  contains c s = false → contains c (replace b EmptyString s) = false.
Proof.
  induction s as [|x s IH]; [done|]. rewrite replace_empty_cons. simpl.
  intros [Hx Hs]%orb_false_iff.
  destruct (Ascii.eqb x b); [by apply IH|]. simpl. by rewrite Hx, IH.
Qed.

Lemma replace_absent a b s : contains a s = false → replace a b s = s.
Proof.
  induction s as [|c s IH]; [done|]. simpl.
  intros [Hc Hs]%orb_false_iff. by rewrite Hc, (IH Hs).
Qed.

Lemma without_unsafe_app x y :
  without_unsafe (x +:+ y) = without_unsafe x +:+ without_unsafe y.
Proof. unfold without_unsafe. simpl. by rewrite !replace_empty_app. Qed.

Lemma contains_without_unsafe c s :
  contains c s = false → contains c (without_unsafe s) = false.
Proof.
  intros H. unfold without_unsafe. simpl.
  by do 3 apply contains_replace_empty.
Qed.

Lemma is_safe_lacks b s :
  b ∈ UNSAFE_URL_BYTES_TO_REMOVE →
  forallb is_safe s = true → contains b s = false.
Proof.
  intros Hb. apply forallb_contains. unfold is_safe.
  by rewrite bool_decide_eq_true_2.
Qed.

Lemma without_unsafe_safe s : forallb is_safe s = true → without_unsafe s = s.
Proof.
  intros H.
  assert (∀ b, b ∈ UNSAFE_URL_BYTES_TO_REMOVE → contains b s = false) as Hb.
  { intros b Hb. by apply is_safe_lacks. }
  unfold without_unsafe. simpl.
  by rewrite (replace_absent "009" _ s), (replace_absent "013" _ s),
    (replace_absent "010" _ s)
    by (apply Hb; unfold UNSAFE_URL_BYTES_TO_REMOVE; rewrite !elem_of_cons; auto).
Qed.

Lemma contains_cleaned c u : contains c u = false → contains c (cleaned u) = false.
Proof. intros H. by apply contains_without_unsafe, contains_lstrip. Qed.

(** Cleaning stops at a character that is neither blank nor deleted. *)
Lemma cleaned_at a d b :
  is_c0_control_or_space d = false →
  is_safe d = true →
  cleaned (a +:+ String d b) = cleaned a +:+ String d (without_unsafe b).
Proof.
  intros Hd Hs. unfold cleaned.
  rewrite lstrip_app_stop, without_unsafe_app by done. f_equal.
  change (String d b) with (String d EmptyString +:+ b).
  rewrite without_unsafe_app, (without_unsafe_safe (String d EmptyString));
    [done|]. simpl. by rewrite Hs.
Qed.

(** *** The query of a text *)

Lemma query_text_cons c s :
  Ascii.eqb c "?" = false → Ascii.eqb c "#" = false →
  query_text (String c s) = query_text s.
Proof.
  intros Hq Hh. unfold query_text. simpl. rewrite Hh.
  destruct (partition "#" s) as [p f]. simpl. rewrite Hq.
  by destruct (partition "?" p).
Qed.

Lemma query_text_skip a b :
  contains "?" a = false → contains "#" a = false →
  query_text (a +:+ b) = query_text b.
Proof.
  induction a as [|c a IH]; [done|]. simpl.
  intros [Hq Ha]%orb_false_iff [Hh Hb]%orb_false_iff.
  rewrite app_cons, query_text_cons by done. by apply IH.
Qed.

Lemma query_text_mark q : query_text (String "?" q) = (partition "#" q).1.
Proof.
  unfold query_text. simpl. by destruct (partition "#" q).
Qed.

Lemma query_text_at a q :
  contains "?" a = false → contains "#" a = false →
  query_text (a +:+ String "?" q) = (partition "#" q).1.
Proof. intros Hq Hh. by rewrite query_text_skip, query_text_mark. Qed.

Lemma contains_partition_fst c sep a :
  contains c a = false → contains c (partition sep a).1 = false.
Proof.
  induction a as [|x a IH]; simpl; [done|].
  intros [Hx Ha]%orb_false_iff.
  destruct (Ascii.eqb x sep); [done|].
  specialize (IH Ha). destruct (partition sep a) as [p q]. simpl in *.
  by rewrite Hx, IH.
Qed.

Lemma partition_fst_sep sep a b :
  (partition sep (a +:+ String sep b)).1 = (partition sep a).1.
Proof.
  induction a as [|x a IH]; simpl.
  - by rewrite Ascii.eqb_refl.
  - destruct (Ascii.eqb x sep); [done|].
    destruct (partition sep (a +:+ String sep b)) as [p q].
    destruct (partition sep a) as [p' q']. simpl in *. by rewrite IH.
Qed.

Lemma query_text_none s :
  contains "?" (partition "#" s).1 = false → query_text s = EmptyString.
Proof. intros H. unfold query_text. by rewrite (partition_missing _ _ H). Qed.

(** A text without [d] that starts [c] followed by [d] starts [c]. *)
Lemma app_prefix x r c d q :
  x +:+ r = c +:+ String d q → contains d x = false → ∃ y, c = x +:+ y.
Proof.
  revert c. induction x as [|a x IH]; intros c; [by exists c|].
  rewrite app_cons. simpl. intros E [Ha Hx]%orb_false_iff.
  destruct c as [|a' c].
  - injection E as -> _. by rewrite Ascii.eqb_refl in Ha.
  - rewrite app_cons in E. injection E as -> E.
    destruct (IH _ E Hx) as [y ->]. by exists y.
Qed.

(** *** Scheme and network location *)

Lemma scheme_char_marks c :
  is_scheme_char c = true → Ascii.eqb c "?" = false ∧ Ascii.eqb c "#" = false.
Proof. by destruct c as [[] [] [] [] [] [] [] []]. Qed.

Lemma scheme_lacks_marks s :
  forallb is_scheme_char s = true →
  contains "?" s = false ∧ contains "#" s = false.
Proof.
  induction s as [|c s IH]; [done|]. simpl.
  intros [[Hq Hh]%scheme_char_marks Hs]%andb_true_iff.
  destruct (IH Hs) as [-> ->]. by rewrite Hq, Hh.
Qed.

Lemma split_scheme_eq url :
  ∃ a, url = a +:+ (split_scheme url).2
       ∧ contains "?" a = false ∧ contains "#" a = false.
Proof.
  unfold split_scheme.
  destruct (partition ":" url) as [[|c head] [rest|]] eqn:E;
    try by exists EmptyString.
  destruct (_ && forallb is_scheme_char (String c head)) eqn:Hs;
    [|by exists EmptyString].
  apply andb_true_iff in Hs as [_ Hs].
  apply partition_some in E as [-> _].
  exists (String c head +:+ ":"). simpl snd.
  destruct (scheme_lacks_marks _ Hs) as [Hq Hh].
  rewrite !contains_app, Hq, Hh. split; [|done].
  by rewrite app_assoc.
Qed.

Lemma startswith_slashes r :
  startswith "//" r = true → r = "//" +:+ drop 2 r.
Proof.
  destruct r as [|a [|b r]]; cbn [startswith]; try done.
  - by rewrite andb_false_r.
  - destruct (Ascii.eqb_spec "/" a) as [<-|]; [|done].
    destruct (Ascii.eqb_spec "/" b) as [<-|]; done.
Qed.

Lemma splitnetloc_eq x :
  x = (splitnetloc x).1 +:+ (splitnetloc x).2
  ∧ contains "?" (splitnetloc x).1 = false
  ∧ contains "#" (splitnetloc x).1 = false.
Proof.
  induction x as [|c x (IH & Hq & Hh)]; [done|]. simpl.
  destruct (Ascii.eqb c "/" || Ascii.eqb c "?" || Ascii.eqb c "#") eqn:Hc;
    [done|].
  apply orb_false_iff in Hc as [[_ Hc1]%orb_false_iff Hc2].
  destruct (splitnetloc x) as [n r]. simpl in *.
  rewrite Hq, Hh, Hc1, Hc2. by rewrite app_cons, <- IH.
Qed.

Lemma check_bracketed_host_cases h :
  check_bracketed_host h = Ret () ∨ check_bracketed_host h = Raise ValueError.
Proof.
  unfold check_bracketed_host, Ipaddress.ip_address.
  destruct (startswith "v" h); [destruct (is_ipvfuture h); auto|].
  destruct (Ipaddress.IPv4Address h); simpl; [auto|].
  destruct (Ipaddress.IPv6Address h); simpl; auto.
Qed.

Lemma check_netloc_cases n :
  check_netloc n = Ret () ∨ check_netloc n = Raise ValueError.
Proof.
  unfold check_netloc, check_bracketed_netloc.
  destruct (_ || _); [auto|]. destruct (_ && _); [|auto].
  destruct (partition "[" _) as [before [bracketed|]].
  - destruct (negb (is_empty before)); [auto|].
    destruct (partition "]" bracketed) as [hostname port].
    destruct (_ && _); [auto|]. apply check_bracketed_host_cases.
  - apply check_bracketed_host_cases.
Qed.

Lemma check_netloc_plain n :
  contains "[" n = false → contains "]" n = false → check_netloc n = Ret ().
Proof. intros H1 H2. unfold check_netloc. by rewrite H1, H2. Qed.

(** [urlsplit] on its cleaned text: what it skips, the network location
    it checks, and the rest, from which it cuts the query. *)
Lemma urlsplit_eq u :
  ∃ sch skipped n rest,
    cleaned u = skipped +:+ n +:+ rest
    ∧ contains "?" (skipped +:+ n) = false
    ∧ contains "#" (skipped +:+ n) = false
    ∧ urlsplit u =
        (check_netloc n;;
         Ret (sch, n, (partition "?" (partition "#" rest).1).1,
              query_text rest, default EmptyString (partition "#" rest).2)).
Proof.
  unfold urlsplit.
  change (foldl _ (lstrip is_c0_control_or_space u) UNSAFE_URL_BYTES_TO_REMOVE)
    with (cleaned u).
  destruct (split_scheme_eq (cleaned u)) as (a & Ha & Hq & Hh).
  destruct (split_scheme (cleaned u)) as [sch r]. simpl in Ha.
  destruct (startswith "//" r) eqn:Hs.
  - pose proof (startswith_slashes _ Hs) as Hr.
    destruct (splitnetloc_eq (drop 2 r)) as (Hx & Hnq & Hnh).
    destruct (splitnetloc (drop 2 r)) as [n rest]. simpl in *.
    exists sch, (a +:+ "//"), n, rest. split_and!.
    + rewrite Ha, Hr at 1. rewrite Hx at 1. by rewrite !app_assoc.
    + by rewrite !contains_app, Hq, Hnq.
    + by rewrite !contains_app, Hh, Hnh.
    + destruct (check_netloc n); [|done]. simpl. unfold query_text.
      destruct (partition "#" rest) as [p f]. simpl.
      by destruct (partition "?" p).
  - exists sch, a, EmptyString, r. split_and!.
    + done.
    + by rewrite contains_app, Hq.
    + by rewrite contains_app, Hh.
    + simpl. unfold query_text.
      destruct (partition "#" r) as [p f]. simpl.
      by destruct (partition "?" p).
Qed.

(** [urlparse] returns with the query of the rest, or raises [ValueError]
    because of the network location. *)
Lemma urlparse_eq u :
  ∃ skipped n rest,
    cleaned u = skipped +:+ n +:+ rest
    ∧ contains "?" (skipped +:+ n) = false
    ∧ contains "#" (skipped +:+ n) = false
    ∧ ((check_netloc n = Ret ()
        ∧ ∃ parsed, urlparse u = Ret parsed ∧ query parsed = query_text rest)
       ∨ (check_netloc n = Raise ValueError ∧ urlparse u = Raise ValueError)).
Proof.
  destruct (urlsplit_eq u) as (sch & skipped & n & rest & Hc & Hq & Hh & E).
  exists skipped, n, rest. split_and!; try done.
  unfold urlparse. rewrite E.
  destruct (check_netloc_cases n) as [-> | ->]; [left|right]; [|done].
  split; [done|]. simpl.
  destruct (if _ && _ then _ else _) as [url params]. by eexists.
Qed.

Lemma urlparse_raises u e : urlparse u = Raise e → e = ValueError.
Proof.
  destruct (urlparse_eq u) as (? & ? & ? & _ & _ & _ & [[_ [? [E _]]]|[_ E]]);
    rewrite E; congruence.
Qed.

Lemma urlparse_query u parsed :
  urlparse u = Ret parsed → query parsed = query_text (cleaned u).
Proof.
  destruct (urlparse_eq u)
    as (skipped & n & rest & Hc & Hq & Hh & [[_ [p [E Hp]]]|[_ E]]);
    rewrite E; [|done].
  intros [= <-]. rewrite Hp, Hc, <- app_assoc. by rewrite query_text_skip.
Qed.

(** A URL whose brackets, if any, come after the first question mark or
    hash is accepted. *)
Lemma urlparse_accepts u c d q :
  cleaned u = c +:+ String d q →
  d = "?"%char ∨ d = "#"%char →
  contains "[" c = false → contains "]" c = false →
  ∃ parsed, urlparse u = Ret parsed.
Proof.
  intros Hu Hd Ho Hcl.
  destruct (urlparse_eq u)
    as (skipped & n & rest & Hc & Hq & Hh & [[_ [p [E _]]]|[Hn _]]);
    [by exists p|].
  rewrite Hu, <- app_assoc in Hc. symmetry in Hc.
  apply app_prefix in Hc as [y ->]; [|by destruct Hd as [-> | ->]].
  rewrite !contains_app in Ho, Hcl.
  apply orb_false_iff in Ho as [[_ Ho]%orb_false_iff _].
  apply orb_false_iff in Hcl as [[_ Hcl]%orb_false_iff _].
  by rewrite check_netloc_plain in Hn.
Qed.

Lemma urlparse_accepts_plain u :
  contains "[" u = false → contains "]" u = false →
  ∃ parsed, urlparse u = Ret parsed.
Proof.
  intros Ho Hcl.
  destruct (urlparse_eq u)
    as (skipped & n & rest & Hc & Hq & Hh & [[_ [p [E _]]]|[Hn _]]);
    [by exists p|].
  apply (contains_cleaned "[") in Ho. apply (contains_cleaned "]") in Hcl.
  rewrite Hc, !contains_app in Ho, Hcl.
  apply orb_false_iff in Ho as [_ [Ho _]%orb_false_iff].
  apply orb_false_iff in Hcl as [_ [Hcl _]%orb_false_iff].
  by rewrite check_netloc_plain in Hn.
Qed.

(** The query of a URL with nothing marked before its question mark. *)
Lemma urlparse_at_query prefix q :
  contains "?" prefix = false → contains "#" prefix = false →
  contains "[" prefix = false → contains "]" prefix = false →
  ∃ parsed, urlparse (prefix +:+ String "?" q) = Ret parsed
            ∧ query parsed = (partition "#" (without_unsafe q)).1.
Proof.
  intros Hq Hh Ho Hcl.
  pose proof (cleaned_at prefix "?" q eq_refl eq_refl) as Hc.
  destruct (urlparse_accepts _ _ _ _ Hc) as [parsed E];
    [by left|by apply contains_cleaned..|].
  exists parsed. split; [done|].
  rewrite (urlparse_query _ _ E), Hc.
  by apply query_text_at; apply contains_cleaned.
Qed.

(** A URL with no question mark before its first hash has no query. *)
Lemma urlparse_no_query u parsed :
  contains "?" (partition "#" u).1 = false →
  urlparse u = Ret parsed → query parsed = EmptyString.
Proof.
  intros H E. rewrite (urlparse_query _ _ E). apply query_text_none.
  unfold cleaned, without_unsafe. simpl.
  assert (∀ b s, Ascii.eqb b "#" = false →
            (partition "#" (replace b EmptyString s)).1
            = replace b EmptyString (partition "#" s).1) as Hrep.
  { intros b s Hb. induction s as [|c s IH]; [done|].
    rewrite replace_empty_cons. simpl.
    destruct (Ascii.eqb_spec c b) as [->|Hc].
    - rewrite Hb, IH. destruct (partition "#" s) as [x y]. simpl.
      by rewrite Ascii.eqb_refl.
    - simpl. destruct (Ascii.eqb c "#"); [done|].
      rewrite <- (Ascii.eqb_neq) in Hc.
      destruct (partition "#" (replace b EmptyString s)) as [x y].
      destruct (partition "#" s) as [x' y']. simpl in *.
      by rewrite Hc, IH. }
  assert (∀ s, (partition "#" (lstrip is_c0_control_or_space s)).1
               = lstrip is_c0_control_or_space (partition "#" s).1) as Hstrip.
  { induction s as [|c s IH]; [done|]. simpl.
    destruct (is_c0_control_or_space c) eqn:Hc.
    - assert (Ascii.eqb c "#" = false) as -> by by destruct c as [[] [] [] [] [] [] [] []].
      destruct (partition "#" s) as [x y]. simpl in *. by rewrite Hc.
    - simpl. destruct (Ascii.eqb c "#"); [done|].
      destruct (partition "#" s) as [x y]. simpl. by rewrite Hc. }
  rewrite !Hrep, Hstrip by done.
  by do 3 apply contains_replace_empty; apply contains_lstrip.
Qed.

End SplitFacts.

(** ** Query strings *)

Module UrlFacts.
Import Str Urllib StrFacts.

Lemma foldl_add_value name pairs : ∀ m : gmap string (list string),
  foldl add_value m pairs !! name =
    match values_for name pairs with
    | [] => m !! name
    | vs => Some (default [] (m !! name) ++ vs)
    end.
Proof.
  unfold values_for.
  induction pairs as [|[n v] pairs IH]; intros m; [done|].
  simpl foldl. rewrite IH. clear IH.
  destruct (decide (n = name)) as [->|Hne].
  - rewrite filter_cons_True, fmap_cons by done.
    generalize ((filter (λ nv, nv.1 = name) pairs).*2). intros vs.
    assert (add_value m (name, v) !! name
            = Some (default [] (m !! name) ++ [v])) as ->.
    { unfold add_value. simpl.
      destruct (m !! name) as [ws|] eqn:E; by rewrite lookup_insert_eq. }
    simpl. destruct vs; [done|].
    by rewrite <- (assoc_L (++)).
  - rewrite filter_cons_False by done.
    assert (add_value m (n, v) !! name = m !! name) as ->; [|done].
    unfold add_value. simpl.
    destruct (m !! n); by rewrite lookup_insert_ne.
Qed.

Lemma parse_qs_lookup qs name :
  parse_qs qs !! name =
    match values_for name (parse_qsl qs) with
    | [] => None
    | vs => Some vs
    end.
Proof.
  unfold parse_qs. rewrite foldl_add_value, lookup_empty.
  by destruct (values_for name (parse_qsl qs)).
Qed.

(** A field yields nothing or the one pair it spells. *)
Lemma parse_field_eq field :
  parse_field field =
    match partition "=" field with
    | (n, Some v) =>
        if is_empty v then [] else [(unquote_plus n, unquote_plus v)]
    | (_, None) => []
    end.
Proof.
  unfold parse_field. destruct field as [|c field]; [done|].
  simpl is_empty. cbv iota.
  by destruct (partition "=" (String c field)) as [n [v|]].
Qed.

Lemma parse_field_param name field :
  names_param name field →
  ∃ value, is_param name value field ∧
           values_for name (parse_field field) = [value].
Proof.
  intros (value & rn & rv & Hp & Hrv & <- & <-).
  exists (unquote_plus rv). split; [by exists rn, rv|].
  rewrite parse_field_eq, Hp.
  apply is_empty_false in Hrv as ->.
  unfold values_for. by rewrite filter_cons_True.
Qed.

Lemma parse_field_other name field :
  ¬ names_param name field → values_for name (parse_field field) = [].
Proof.
  intros Hno. rewrite parse_field_eq.
  destruct (partition "=" field) as [n [v|]] eqn:Hp; [|done].
  destruct (is_empty v) eqn:Hv; [done|].
  unfold values_for.
  destruct (decide (unquote_plus n = name)) as [Hn|Hn].
  - destruct Hno. exists (unquote_plus v), n, v.
    by apply is_empty_false in Hv.
  - by rewrite filter_cons_False.
Qed.

Lemma is_param_fun name v1 v2 field :
  is_param name v1 field → is_param name v2 field → v1 = v2.
Proof.
  intros (n1 & r1 & H1 & _ & _ & <-) (n2 & r2 & H2 & _ & _ & <-). congruence.
Qed.

Lemma values_for_app name l1 l2 :
  values_for name (l1 ++ l2) = values_for name l1 ++ values_for name l2.
Proof. unfold values_for. by rewrite filter_app, fmap_app. Qed.

Lemma names_param_dec name field :
  names_param name field ∨ ¬ names_param name field.
Proof.
  destruct (partition "=" field) as [n [v|]] eqn:Hp.
  - destruct (is_empty v) eqn:Hv.
    + right. intros (? & rn & rv & Hp' & Hrv & _).
      apply is_empty_true in Hv. congruence.
    + destruct (decide (unquote_plus n = name)) as [Hn|Hn].
      * left. exists (unquote_plus v), n, v. by apply is_empty_false in Hv.
      * right. intros (? & rn & rv & Hp' & _ & Hn' & _). congruence.
  - right. intros (? & rn & rv & Hp' & _). congruence.
Qed.

Lemma values_for_fields name fields :
  match values_for name (flat_map parse_field fields) with
  | value :: _ =>
      ∃ before field after,
        fields = before ++ field :: after ∧
        Forall (λ f, ¬ names_param name f) before ∧
        is_param name value field
  | [] => Forall (λ f, ¬ names_param name f) fields
  end.
Proof.
  induction fields as [|f fields IH]; [by constructor|].
  simpl flat_map. rewrite values_for_app.
  destruct (names_param_dec name f) as [Hf|Hf].
  - destruct (parse_field_param _ _ Hf) as (value & Hv & ->).
    simpl. by exists [], f, fields.
  - rewrite (parse_field_other _ _ Hf). simpl.
    destruct (values_for name (flat_map parse_field fields)) as [|value vs].
    + by constructor.
    + destruct IH as (before & field & after & -> & Hb & Hv).
      exists (f :: before), field, after. split_and!; [done| |done].
      by constructor.
Qed.

Lemma values_for_first name before field after value :
  Forall (λ f, ¬ names_param name f) before →
  is_param name value field →
  head (values_for name (flat_map parse_field (before ++ field :: after)))
    = Some value.
Proof.
  intros Hb Hv. induction Hb as [|f before Hf _ IH].
  - simpl. rewrite values_for_app.
    destruct (parse_field_param name field) as (v' & Hv' & ->);
      [by exists value|].
    simpl. f_equal. eapply is_param_fun; eauto.
  - simpl. by rewrite values_for_app, (parse_field_other _ _ Hf).
Qed.

(** *** The token [respond_to] reads *)

Lemma request_token_eq request :
  request_token request =
    parsed ← urlparse (url request);
    match values_for "access_token" (parse_qsl (query parsed)) with
    | [] => Raise (KeyError "access_token")
    | token :: _ => Ret token
    end.
Proof.
  unfold request_token.
  destruct (urlparse (url request)) as [parsed|e]; [|done]. simpl.
  unfold getitem. rewrite parse_qs_lookup.
  by destruct (values_for _ _).
Qed.

Lemma request_token_carried request token :
  carries_token (url request) token → request_token request = Ret token.
Proof.
  intros (parsed & before & field & after & Hp & Hs & Hb & Hv).
  rewrite request_token_eq, Hp. simpl. unfold parse_qsl. rewrite Hs.
  pose proof (values_for_first _ _ _ after _ Hb Hv) as H.
  destruct (values_for _ _); simpl in H; congruence.
Qed.

Lemma request_token_ret request token :
  request_token request = Ret token → carries_token (url request) token.
Proof.
  rewrite request_token_eq. unfold carries_token.
  destruct (urlparse (url request)) as [parsed|e]; [|done]. simpl.
  unfold parse_qsl.
  pose proof (values_for_fields "access_token"
    (split "&" (query parsed))) as H.
  destruct (values_for _ _) as [|v vs]; [done|].
  intros [= <-]. destruct H as (before & field & after & H).
  by exists parsed, before, field, after.
Qed.

Lemma request_token_cases request :
  (∃ token, request_token request = Ret token)
  ∨ request_token request = Raise (KeyError "access_token")
  ∨ request_token request = Raise ValueError.
Proof.
  rewrite request_token_eq.
  destruct (urlparse (url request)) as [parsed|e] eqn:E; simpl.
  - destruct (values_for _ _); eauto.
  - apply SplitFacts.urlparse_raises in E as ->. auto.
Qed.

Lemma request_token_rejected request :
  request_token request = Raise ValueError ↔
  urlparse (url request) = Raise ValueError.
Proof.
  rewrite request_token_eq.
  destruct (urlparse (url request)) as [parsed|e]; simpl.
  - by destruct (values_for _ _).
  - split; by intros [= ->].
Qed.

Lemma respond_to_token request token :
  request_token request = Ret token →
  respond_to request =
    Ret match USER_INFO !! token with
        | Some body => (200, ∅, Json.dumps body)
        | None => (401, ∅, Json.dumps invalid_token_body)
        end.
Proof.
  intros H. unfold respond_to. rewrite H. simpl. unfold getitem.
  by destruct (USER_INFO !! token).
Qed.

Lemma respond_to_raise request e :
  request_token request = Raise e → respond_to request = Raise e.
Proof. intros H. unfold respond_to. by rewrite H. Qed.

Lemma values_for_none name fields :
  Forall (λ f, ¬ names_param name f) fields →
  values_for name (flat_map parse_field fields) = [].
Proof.
  induction 1 as [|f fields Hf _ IH]; [done|].
  simpl. by rewrite values_for_app, (parse_field_other _ _ Hf), IH.
Qed.

Lemma request_token_missing request :
  request_token request = Raise (KeyError "access_token") ↔
  ∃ parsed,
    urlparse (url request) = Ret parsed
    ∧ Forall (λ f, ¬ names_param "access_token" f) (split "&" (query parsed)).
Proof.
  rewrite request_token_eq.
  destruct (urlparse (url request)) as [parsed|e] eqn:E; simpl.
  - unfold parse_qsl. split.
    + pose proof (values_for_fields "access_token"
        (split "&" (query parsed))) as H.
      destruct (values_for _ _); [|done]. intros _. by exists parsed.
    + intros (? & [= <-] & H). by rewrite (values_for_none _ _ H).
  - apply SplitFacts.urlparse_raises in E as ->.
    split; [done|]. by intros (? & ? & _).
Qed.

Lemma known_good_iff token :
  known_good token ↔ token = "user_1" ∨ token = "user_2".
Proof.
  unfold known_good, USER_INFO. split.
  - intros [body H].
    destruct (decide (token = "user_2")) as [|H2]; [by right|].
    destruct (decide (token = "user_1")) as [|H1]; [by left|].
    by rewrite !lookup_insert_ne, lookup_empty in H.
  - intros [-> | ->]; by eexists.
Qed.

End UrlFacts.

(** ** Patterns: the matcher against the language *)

Module ReFacts.
Import Str Re StrFacts.

Lemma app_eq_nil a b : a +:+ b = EmptyString → a = EmptyString ∧ b = EmptyString.
Proof. destruct a; [done|]. by rewrite app_cons. Qed.

Lemma app_eq_cons a b c s :
  a +:+ b = String c s →
  (a = EmptyString ∧ b = String c s) ∨ (∃ a', a = String c a' ∧ s = a' +:+ b).
Proof.
  destruct a as [|x a]; [by left|].
  rewrite app_cons. intros [= -> <-]. right. by exists a.
Qed.

Lemma lang_eps_inv s : lang Eps s → s = EmptyString.
Proof. by inversion 1. Qed.

Lemma lang_one b s : lang (one b) s ↔ b = true ∧ s = EmptyString.
Proof.
  destruct b; simpl; split.
  - by intros ->%lang_eps_inv.
  - intros [_ ->]. constructor.
  - inversion 1.
  - by intros [? _].
Qed.

Lemma nullable_lang r : nullable r = true ↔ lang r EmptyString.
Proof.
  split.
  - induction r; simpl; intros H; try done; try by constructor.
    + apply andb_true_iff in H as [H1 H2].
      apply (L_Cat _ _ EmptyString EmptyString); auto.
    + apply orb_true_iff in H as [H|H]; [apply L_Alt_l|apply L_Alt_r]; auto.
    + apply (L_Plus _ EmptyString EmptyString); [auto|constructor].
    + constructor. auto.
  - induction r; simpl; intros H; inversion H; subst; try done.
    + match goal with E : _ +:+ _ = _ |- _ => apply app_eq_nil in E as [-> ->] end.
      apply andb_true_iff. auto.
    + apply orb_true_iff. auto.
    + apply orb_true_iff. auto.
    + match goal with E : _ +:+ _ = _ |- _ => apply app_eq_nil in E as [-> ->] end.
      auto.
    + auto.
Qed.

Lemma star_cons_inv r c s :
  lang (Star r) (String c s) →
  ∃ s1 s2, s = s1 +:+ s2 ∧ lang r (String c s1) ∧ lang (Star r) s2.
Proof.
  intros H. remember (Star r) as r' eqn:Hr. remember (String c s) as s' eqn:Hs.
  induction H as [| | | | | | | | | |r0 s1 s2 H1 _ H2 IH| |]; try done.
  injection Hr as ->.
  apply app_eq_cons in Hs as [[-> ->]|(a' & -> & ->)].
  - by apply IH.
  - by exists a', s2.
Qed.

Lemma deriv_lang c r : ∀ s, lang (deriv c r) s ↔ lang r (String c s).
Proof.
  induction r as [| |d| |items|r1 IH1 r2 IH2|r1 IH1 r2 IH2|r IH|r IH|r IH|r IH];
    intros s; simpl.
  - split; inversion 1.
  - split; inversion 1.
  - rewrite lang_one. split.
    + intros [->%Ascii.eqb_eq ->]. constructor.
    + inversion 1; subst. by rewrite Ascii.eqb_refl.
  - rewrite lang_one. split.
    + intros [Hc%negb_true_iff%Ascii.eqb_neq ->]. by constructor.
    + inversion 1; subst. split; [|done].
      by apply negb_true_iff, Ascii.eqb_neq.
  - rewrite lang_one. split.
    + intros [Hc ->]. by constructor.
    + by inversion 1; subst.
  - split.
    + inversion 1 as [| | | | |? ? ? Hl|? ? ? Hr| | | | | |]; subst.
      * inversion Hl; subst.
        apply (L_Cat _ _ (String c _)); [by apply IH1|done].
      * destruct (nullable r1) eqn:Hn; [|inversion Hr].
        apply (L_Cat _ _ EmptyString); [by apply nullable_lang|by apply IH2].
    + inversion 1 as [| | | |? ? s1 s2 H1 H2 E1 E2| | | | | | | |]; subst.
      apply app_eq_cons in E2 as [[-> ->]|(a' & -> & ->)].
      * apply L_Alt_r. apply nullable_lang in H1 as ->. by apply IH2.
      * apply L_Alt_l. constructor; [by apply IH1|done].
  - split.
    + inversion 1; subst; [apply L_Alt_l; by apply IH1|apply L_Alt_r; by apply IH2].
    + inversion 1; subst; [apply L_Alt_l; by apply IH1|apply L_Alt_r; by apply IH2].
  - split.
    + intros H. apply L_Opt_some. by apply IH.
    + inversion 1; subst. by apply IH.
  - split.
    + inversion 1; subst.
      apply (L_Star_more _ (String c _)); [by apply IH|done].
    + intros (s1 & s2 & -> & H1 & H2)%star_cons_inv.
      constructor; [by apply IH|done].
  - split.
    + inversion 1; subst.
      apply (L_Plus _ (String c _)); [by apply IH|done].
    + inversion 1 as [| | | | | | | | | | |? s1 s2 H1 H2 E1 E2|]; subst.
      apply app_eq_cons in E2 as [[-> ->]|(a' & -> & ->)].
      * apply star_cons_inv in H2 as (t1 & t2 & -> & Ht1 & Ht2).
        constructor; [by apply IH|done].
      * constructor; [by apply IH|done].
  - split.
    + intros H. constructor. by apply IH.
    + inversion 1; subst. by apply IH.
Qed.

(** [Pattern.match] finds a match exactly when a prefix of the text is in
    the language and the final [$] holds after it. *)
Lemma match_from_spec dollar s : ∀ r,
  match_from dollar r s = true ↔
  ∃ a b, s = a +:+ b ∧ lang r a ∧ at_end dollar b = true.
Proof.
  induction s as [|c s IH]; intros r; simpl.
  - rewrite orb_false_r, andb_true_iff, nullable_lang. split.
    + intros [H1 H2]. by exists EmptyString, EmptyString.
    + intros (a & b & [-> ->]%eq_sym%app_eq_nil & H1 & H2). done.
  - rewrite orb_true_iff, andb_true_iff, nullable_lang, IH. split.
    + intros [[H1 H2]|(a & b & -> & H1 & H2)].
      * by exists EmptyString, (String c s).
      * exists (String c a), b. split_and!; [done| |done]. by apply deriv_lang.
    + intros (a & b & E%eq_sym & H1 & H2).
      apply app_eq_cons in E as [[-> ->]|(a' & -> & ->)].
      * by left.
      * right. exists a', b. split_and!; [done| |done]. by apply deriv_lang.
Qed.

End ReFacts.

(** ** The URL pattern of the harness *)

Module MockUrlFacts.
Import Str Re StrFacts ReFacts.

Lemma classify_dot c : classify c = KDot → c = "."%char.
Proof. by destruct c as [[] [] [] [] [] [] [] []]. Qed.

(** Escaped dots and plain characters compile to literals. *)
Lemma parse_literal base : ∀ q cur stack rest,
  forallb is_literal base = true →
  parse Normal q cur stack (replace "." "\." base +:+ rest) =
  parse Normal (q && is_empty base)
        (rev (Lit <$> list_ascii_of_string base) ++ cur) stack rest.
Proof.
  induction base as [|c base IH]; intros q cur stack rest.
  - intros _. simpl. by rewrite andb_true_r.
  - simpl forallb. intros [Hc Hb]%andb_true_iff.
    simpl replace. simpl list_ascii_of_string.
    rewrite fmap_cons, andb_false_r. simpl rev.
    rewrite <- (assoc_L (++)). simpl app.
    destruct (Ascii.eqb c ".") eqn:Hdot.
    + apply Ascii.eqb_eq in Hdot as ->.
      rewrite <- (IH false) by done. reflexivity.
    + rewrite <- (IH false) by done. rewrite app_cons.
      unfold is_literal in Hc. simpl parse.
      destruct (classify c) eqn:Hk; try done.
      apply classify_dot in Hk as ->. done.
Qed.

Lemma parse_query_strings q cur :
  parse Normal q cur [] QUERY_STRINGS_RE =
  Some {| re := seq (rev cur ++ query_atoms); dollar := true |}.
Proof.
  simpl. by rewrite <- (assoc_L (++)).
Qed.

Lemma mock_url_compiles base :
  forallb is_literal base = true →
  mock_url base =
  Some {| re := seq ((Lit <$> list_ascii_of_string base) ++ query_atoms);
          dollar := true |}.
Proof.
  intros Hb. unfold mock_url, compile.
  rewrite (parse_literal _ _ _ _ _ Hb), parse_query_strings.
  by rewrite List.app_nil_r, rev_involutive.
Qed.

Lemma lang_literals base atoms s :
  lang (seq atoms) s →
  lang (seq ((Lit <$> list_ascii_of_string base) ++ atoms)) (base +:+ s).
Proof.
  intros H. induction base as [|c base IH]; [done|].
  apply (L_Cat (Lit c) _ (String c EmptyString)); [constructor|done].
Qed.

Lemma lang_seq_cons a atoms s1 s2 :
  lang a s1 → lang (seq atoms) s2 → lang (seq (a :: atoms)) (s1 +:+ s2).
Proof. apply L_Cat. Qed.

Lemma lang_seq_last a s : lang a s → lang (seq [a]) s.
Proof.
  intros H. rewrite <- (app_nil_r s). apply L_Cat; [done|constructor].
Qed.

Lemma in_field_class c : in_class [CWord; CChar "-"] c = is_field_char c.
Proof. unfold is_field_char. simpl. by rewrite orb_false_r. Qed.

Lemma lang_star_class w :
  forallb is_field_char w = true → lang (Star field_class) w.
Proof.
  induction w as [|c w IH]; simpl; [constructor|].
  intros [Hc Hw]%andb_true_iff.
  apply (L_Star_more _ (String c EmptyString)); [|auto].
  constructor. by rewrite in_field_class.
Qed.

Lemma lang_plus_class w :
  w ≠ EmptyString → forallb is_field_char w = true → lang (Plus field_class) w.
Proof.
  destruct w as [|c w]; [done|]. simpl. intros _ [Hc Hw]%andb_true_iff.
  apply (L_Plus _ (String c EmptyString)); [|by apply lang_star_class].
  constructor. by rewrite in_field_class.
Qed.

Lemma lang_value_part v :
  forallb is_field_char v = true → lang value_part ("=" +:+ v).
Proof.
  intros Hv. apply L_Opt_some, L_Group.
  apply (lang_seq_cons _ _ "="); [constructor|].
  by apply lang_seq_last, lang_star_class.
Qed.

Lemma lang_key_value kv atoms s :
  well_formed_param kv →
  lang (seq atoms) s →
  lang (seq (Plus field_class :: value_part :: atoms)) (key_value kv +:+ s).
Proof.
  intros (Hk & Hk' & Hv) Hs. unfold key_value.
  rewrite !app_assoc.
  apply lang_seq_cons; [by apply lang_plus_class|].
  rewrite <- app_assoc.
  apply lang_seq_cons; [by apply lang_value_part|done].
Qed.

(** What follows the first pair in a joined query string is in the
    language of the repeated group. *)
Lemma lang_more_params params : ∀ first,
  Forall well_formed_param params →
  ∃ more, join "&" (first :: (key_value <$> params)) = first +:+ more
          ∧ lang more_params more.
Proof.
  induction params as [|kv params IH]; intros first Hall.
  - exists EmptyString. simpl. rewrite app_nil_r. split; [done|constructor].
  - apply Forall_cons in Hall as [Hkv Hall].
    destruct (IH (key_value kv) Hall) as (more & Hj & Hm).
    exists ("&" +:+ key_value kv +:+ more). split.
    + rewrite fmap_cons.
      change (join "&" (first :: key_value kv :: (key_value <$> params)))
        with (first +:+ "&" +:+ join "&" (key_value kv :: (key_value <$> params))).
      by rewrite Hj.
    + assert ("&" +:+ key_value kv +:+ more
              = ("&" +:+ key_value kv +:+ EmptyString) +:+ more) as ->.
      { by rewrite !app_assoc. }
      apply L_Star_more; [|done].
      apply L_Group, (lang_seq_cons _ _ "&"); [constructor|].
      apply lang_key_value; [done|constructor].
Qed.

Lemma lang_query_atoms params :
  Forall well_formed_param params →
  lang (seq query_atoms) ("?" +:+ query_string params).
Proof.
  intros Hall. apply (lang_seq_cons _ _ "?"); [constructor|].
  apply lang_seq_last. unfold query_string.
  destruct params as [|kv params]; [constructor|].
  apply Forall_cons in Hall as [Hkv Hall].
  destruct (lang_more_params params (key_value kv) Hall) as (more & Hj & Hm).
  rewrite fmap_cons, Hj. apply L_Opt_some, L_Group.
  apply lang_key_value; [done|]. by apply lang_seq_last.
Qed.

Lemma mock_url_matches base params :
  forallb is_literal base = true →
  Forall well_formed_param params →
  endpoint_matches (mock_url base) (base +:+ "?" +:+ query_string params).
Proof.
  intros Hb Hall. eexists. split; [by apply mock_url_compiles|].
  apply match_from_spec.
  exists (base +:+ "?" +:+ query_string params), EmptyString.
  split_and!; [by rewrite app_nil_r| |done].
  by apply lang_literals, lang_query_atoms.
Qed.

End MockUrlFacts.

(** ** The adapter's request against the mock *)

Module AdapterFacts.
Import Str Urllib StrFacts UrlFacts.

Lemma quote_char_safe c : forallb quote_safe (quote_char c) = true.
Proof. by destruct c as [[] [] [] [] [] [] [] []]. Qed.

Lemma quote_safe_all s : forallb quote_safe (quote s) = true.
Proof.
  induction s as [|c s IH]; [done|].
  simpl. by rewrite forallb_app, quote_char_safe, IH.
Qed.

Lemma quote_lacks c s : quote_safe c = false → contains c (quote s) = false.
Proof. intros Hc. eapply forallb_contains; [done|apply quote_safe_all]. Qed.

Lemma unquote_quote_char c rest :
  unquote_from 0 (quote_char c +:+ rest) = String c (unquote_from 0 rest).
Proof. by destruct c as [[] [] [] [] [] [] [] []]. Qed.

Lemma unquote_quote s : unquote (quote s) = s.
Proof.
  unfold unquote. induction s as [|c s IH]; [done|].
  simpl. by rewrite unquote_quote_char, IH.
Qed.

Lemma unquote_plus_quote s : unquote_plus (quote s) = s.
Proof.
  unfold unquote_plus.
  by rewrite SplitFacts.replace_absent, unquote_quote by by apply quote_lacks.
Qed.

Lemma quote_is_empty s : is_empty (quote s) = is_empty s.
Proof. destruct s as [|c s]; [done|]. by destruct c as [[] [] [] [] [] [] [] []]. Qed.

Lemma quote_safe_is_safe s : forallb is_safe (quote s) = true.
Proof.
  assert (∀ t, forallb quote_safe t = true → forallb is_safe t = true) as H.
  { induction t as [|c t IH]; [done|]. simpl.
    intros [Hc Ht]%andb_true_iff. rewrite (IH Ht), andb_true_r.
    by destruct c as [[] [] [] [] [] [] [] []]. }
  apply H, quote_safe_all.
Qed.

(** The query of the URL an adapter asks for is its one parameter. *)
Lemma adapter_query base token :
  contains "?" base = false →
  contains "#" base = false →
  contains "[" base = false →
  contains "]" base = false →
  ∃ parsed,
    urlparse (base +:+ "?access_token=" +:+ quote token) = Ret parsed
    ∧ query parsed = "access_token=" +:+ quote token.
Proof.
  intros Hq Hh Ho Hc.
  destruct (SplitFacts.urlparse_at_query base ("access_token=" +:+ quote token)
              Hq Hh Ho Hc) as (parsed & E & Hp).
  exists parsed. split; [exact E|].
  rewrite Hp, SplitFacts.without_unsafe_safe.
  - rewrite partition_missing; [done|].
    by rewrite contains_app, (quote_lacks "#").
  - by rewrite forallb_app, quote_safe_is_safe.
Qed.

Lemma adapter_fields token :
  split "&" ("access_token=" +:+ quote token) = ["access_token=" +:+ quote token].
Proof.
  apply split_missing.
  by rewrite contains_app, (quote_lacks "&").
Qed.

Lemma adapter_field_partition token :
  partition "=" ("access_token=" +:+ quote token) = ("access_token", Some (quote token)).
Proof. by apply (partition_found "=" "access_token"). Qed.

(** The mock reads back the token the adapter sent. *)
Lemma adapter_token base token m :
  contains "?" base = false →
  contains "#" base = false →
  contains "[" base = false →
  contains "]" base = false →
  request_token {| method := m;
                   url := base +:+ "?access_token=" +:+ quote token |}
  = if is_empty token then Raise (KeyError "access_token") else Ret token.
Proof.
  intros Hq Hh Ho Hc.
  destruct (adapter_query base token Hq Hh Ho Hc) as (parsed & E & Hp).
  destruct (is_empty token) eqn:He.
  - apply request_token_missing. simpl url. exists parsed. split; [done|].
    rewrite Hp, adapter_fields. constructor; [|constructor].
    intros (v & rn & rv & Hf & Hrv & _).
    rewrite adapter_field_partition in Hf. injection Hf as <- <-.
    apply is_empty_false in Hrv. rewrite quote_is_empty in Hrv. congruence.
  - apply request_token_carried. simpl url.
    exists parsed, [], ("access_token=" +:+ quote token), [].
    split_and!; [done|by rewrite Hp, adapter_fields|constructor|].
    exists "access_token", (quote token).
    split_and!; [apply adapter_field_partition| |done|apply unquote_plus_quote].
    apply is_empty_false. by rewrite quote_is_empty.
Qed.

(** A base of literal characters holds no question mark and no bracket. *)
Lemma literal_lacks base :
  forallb Re.is_literal base = true →
  contains "?" base = false ∧ contains "[" base = false
  ∧ contains "]" base = false.
Proof.
  intros Hb. split_and!; by apply (forallb_contains Re.is_literal).
Qed.

End AdapterFacts.

(** ** The login path *)

Module LoginFacts.
Import Str Urllib StrFacts UrlFacts AdapterFacts Login.

Lemma plain_endpoint_no_query base :
  plain_endpoint base → contains "?" base = false.
Proof. intros [H _]. by apply (forallb_contains Re.is_literal). Qed.

Lemma adapter_token_plain base token m :
  plain_endpoint base →
  request_token {| method := m;
                   url := base +:+ "?access_token=" +:+ quote token |}
  = if is_empty token then Raise (KeyError "access_token") else Ret token.
Proof.
  intros [Hb Hh]. destruct (literal_lacks _ Hb) as (Hq & Ho & Hc).
  by apply adapter_token.
Qed.

Lemma plain_endpoint_user_info fb p :
  plain_endpoint fb → plain_endpoint (user_info_url fb p).
Proof. intros H. by destruct p. Qed.

Lemma known_body token body :
  USER_INFO !! token = Some body →
  (token = "user_1" ∧ body = user_1) ∨ (token = "user_2" ∧ body = user_2).
Proof.
  intros H. assert (known_good token) as [-> | ->]%known_good_iff by by eexists.
  - left. split; [done|]. by injection H.
  - right. split; [done|]. by injection H.
Qed.

(** The mock answers the adapter's request for a known token. *)
Lemma harness_known base token body :
  plain_endpoint base →
  USER_INFO !! token = Some body →
  harness (mock_url base)
          {| method := "GET"; url := base +:+ "?access_token=" +:+ quote token |}
  = Ret (200, ∅, Json.dumps body).
Proof.
  intros Hb Hk.
  assert (quote token = token ∧ well_formed_param ("access_token", token)
          ∧ is_empty token = false) as (Hq & Hwf & Hne).
  { destruct (known_body _ _ Hk) as [[-> _]|[-> _]]; by split_and!. }
  destruct (MockUrlFacts.mock_url_matches base [("access_token", token)])
    as (pattern & -> & Hm); [apply Hb|by constructor|].
  unfold harness, mocked. rewrite Hq. simpl url.
  change (base +:+ "?access_token=" +:+ token)
    with (base +:+ "?" +:+ query_string [("access_token", token)]).
  rewrite Hm. simpl.
  erewrite respond_to_token; [by rewrite Hk|].
  rewrite <- Hq at 1.
  change (base +:+ "?" +:+ query_string [("access_token", quote token)])
    with (base +:+ "?access_token=" +:+ quote token).
  by rewrite adapter_token_plain, Hne.
Qed.

(** It gives no 2xx answer for any other token. *)
Lemma harness_unknown endpoint base token :
  plain_endpoint base →
  USER_INFO !! token = None →
  let answer := harness endpoint
      {| method := "GET"; url := base +:+ "?access_token=" +:+ quote token |} in
  (∃ e, answer = Raise e) ∨ answer = Ret (401, ∅, Json.dumps invalid_token_body).
Proof.
  intros Hb Hk. simpl. unfold harness.
  destruct endpoint as [pattern|]; [|by left; eexists].
  unfold mocked. destruct (_ && _); [|by left; eexists].
  pose proof (adapter_token_plain base token "GET" Hb) as Ht.
  destruct (is_empty token).
  - left. eexists. by apply respond_to_raise.
  - right. by rewrite (respond_to_token _ _ Ht), Hk.
Qed.

Lemma verify_known fb p token body w :
  plain_endpoint fb →
  USER_INFO !! token = Some body →
  verify fb (harness (mock_url (user_info_url fb p))) p token w
  = (parse_identity p (Json.dumps body), made_call fb p token w).
Proof.
  intros Hb Hk. unfold verify, user_info_request.
  by rewrite (harness_known _ _ _ (plain_endpoint_user_info _ p Hb) Hk).
Qed.

Lemma verify_unknown fb endpoint p token w :
  plain_endpoint fb →
  USER_INFO !! token = None →
  ∃ e, verify fb (harness endpoint) p token w = (inl e, made_call fb p token w).
Proof.
  intros Hb Hk. unfold verify, user_info_request.
  destruct (harness_unknown endpoint _ token
              (plain_endpoint_user_info _ p Hb) Hk) as [[e ->]| ->];
    by eexists.
Qed.

Lemma login_unknown fb net now name token w :
  resolve name = None →
  login fb net now name token w = (respond (Rejected UnknownProvider), w).
Proof. intros H. unfold login. cbn [run step]. by rewrite H. Qed.

Lemma login_refused fb net now name p token w e w1 :
  resolve name = Some p →
  verify fb net p token w = (inl e, w1) →
  login fb net now name token w
  = (respond (Rejected match e with
                       | TokenInvalidError => InvalidToken
                       | ProviderUnavailableError => ProviderUnavailable
                       end), w1).
Proof.
  intros Hr Hv. unfold login. cbn [run step]. rewrite Hr. cbn [run step].
  rewrite Hv. by destruct e.
Qed.

Lemma login_verified fb net now name p token w ident w1 :
  resolve name = Some p →
  verify fb net p token w = (inr ident, w1) →
  login fb net now name token w
  = let '(account, w2) := reconcile now ident w1 in
    let '(issued, w3) := issue now account token w2 in
    (respond (TokenIssued issued), w3).
Proof.
  intros Hr Hv. unfold login. cbn [run step]. rewrite Hr. cbn [run step].
  rewrite Hv. cbn [run step].
  destruct (reconcile now ident w1) as [account w2]. cbn [run step].
  by destruct (issue now account token w2).
Qed.

Lemma refresh_none ident l :
  filter (λ a, user_email a = email ident) l = [] → refresh ident l = None.
Proof.
  induction l as [|a l IH]; [done|]. simpl.
  destruct (String.eqb_spec (user_email a) (email ident)) as [E|E].
  - by rewrite filter_cons_True.
  - rewrite filter_cons_False by done. intros H. by rewrite (IH H).
Qed.

Lemma mint_inj m n : mint m = mint n → m = n.
Proof.
  unfold mint. intros H. apply Unsigned.to_uint_inj.
  apply (f_equal NilEmpty.uint_of_string) in H.
  rewrite !NilEmpty.usu in H. by injection H.
Qed.

Lemma issue_fresh now account presented w :
  value (issue now account presented w).1 ≠ presented.
Proof.
  unfold issue. simpl.
  destruct (String.eqb_spec (mint (entropy w)) presented) as [E|E]; [|done].
  rewrite <- E. intros H%mint_inj. lia.
Qed.

Lemma issue_world now account presented w :
  accounts (issue now account presented w).2 = accounts w
  ∧ outbound (issue now account presented w).2 = outbound w.
Proof. done. Qed.

Lemma test_mock_url_eq fb p : test_mock_url fb p = mock_url (user_info_url fb p).
Proof. by destruct p. Qed.

Lemma parse_identity_user_1 p :
  parse_identity p (Json.dumps user_1)
  = inr {| provider := p; external_id := "00001"; email := "foo@bar.com";
           display_name := "Foo Bar" |}.
Proof. reflexivity. Qed.

(** A verified identity whose email has no account yet: the login answers
    200 with a token of its own and appends the one new account. *)
Lemma login_first_time fb net now name p token w ident w1 :
  resolve name = Some p →
  verify fb net p token w = (inr ident, w1) →
  accounts w1 = accounts w →
  accounts_with (email ident) w = [] →
  let result := login fb net now name token w in
  status_code result.1 = 200
  ∧ (∃ local, data result.1 !! "token" = Some local ∧ local ≠ token)
  ∧ ∃ account,
      accounts result.2 = accounts w ++ [account]
      ∧ user_email account = email ident
      ∧ username account = email ident
      ∧ accounts_with (email ident) result.2 = [account].
Proof.
  intros Hr Hv Ha Hnone. simpl.
  rewrite (login_verified _ _ _ _ _ _ _ _ _ Hr Hv).
  unfold reconcile. rewrite Ha, refresh_none by done.
  match goal with
  | |- context [issue now ?a token ?w2] =>
      pose proof (issue_fresh now a token w2) as Hfresh;
      pose proof (issue_world now a token w2) as [Hacc _];
      destruct (issue now a token w2) as [issued w3]
  end.
  simpl in *. split_and!; [done| |].
  - exists (value issued). by rewrite lookup_singleton_eq.
  - eexists. split_and!; [exact Hacc|done|done|].
    unfold accounts_with in *. rewrite Hacc, filter_app, Hnone.
    by rewrite filter_cons_True.
Qed.

(** A refused verification: the answer carries no token and the store is
    as it was. *)
Lemma login_no_identity fb net now name p token w e :
  resolve name = Some p →
  verify fb net p token w = (inl e, made_call fb p token w) →
  let result := login fb net now name token w in
  (status_code result.1 = 401 ∨ status_code result.1 = 503)
  ∧ data result.1 !! "token" = None
  ∧ accounts result.2 = accounts w
  ∧ tokens result.2 = tokens w
  ∧ writes result.2 = writes w.
Proof.
  intros Hr Hv. simpl. rewrite (login_refused _ _ _ _ _ _ _ _ _ Hr Hv).
  destruct e; simpl; split_and!; auto.
Qed.

End LoginFacts.

(** ** The embedding on concrete inputs *)

Example parse_qsl_sample :
  Urllib.parse_qsl "a=1&&b&c=&=4&d=x+y%41%4&a=2"
  = [("a", "1"); ("", "4"); ("d", "x yA%4"); ("a", "2")].
Proof. reflexivity. Qed.

Example urlparse_sample :
  Urllib.urlparse "HTTP://user@[::ffff:1.2.3.4]:80/a/b;c=d?x=1?y#z?w"
  = Ret {| Urllib.scheme := "http"; Urllib.netloc := "user@[::ffff:1.2.3.4]:80";
           Urllib.path := "/a/b"; Urllib.params := "c=d";
           Urllib.query := "x=1?y"; Urllib.fragment := "z?w" |}.
Proof. reflexivity. Qed.

Example urlparse_rejects_brackets :
  Urllib.urlparse <$>
    ["http://[::1/?access_token=user_1"; "http://h]/p?access_token=user_1";
     "//["; "http://[1.2.3.4]/"; "http://[::1]x/"; "http://[v1.]/";
     "http://[a]@host/"]
  = replicate 7 (Raise ValueError).
Proof. reflexivity. Qed.

Example urlparse_keeps_later_brackets :
  (parsed ← Urllib.urlparse "//host/[?q=]#[";
   Ret (Urllib.netloc parsed, Urllib.path parsed, Urllib.query parsed))
  = Ret ("host", "/[", "q=]").
Proof. reflexivity. Qed.

Example respond_to_deletes_tab :
  respond_to {| method := "GET";
                url := " ?a" +:+ String "009" "ccess_token=user"
                       +:+ String "013" "_1" +:+ String "010" EmptyString |}
  = Ret (200, ∅, Json.dumps user_1).
Proof. reflexivity. Qed.

Example respond_to_unbalanced_bracket :
  respond_to {| method := "GET"; url := "http://[::1/?access_token=user_1" |}
  = Raise ValueError.
Proof. reflexivity. Qed.

Example respond_to_first_value :
  respond_to {| method := "GET";
                url := "https://www.googleapis.com/plus/v1/people/me?access_token=&access_token=user%5f2&access_token=user_1" |}
  = Ret (200, ∅, Json.dumps user_2).
Proof. reflexivity. Qed.

Example respond_to_no_token :
  respond_to {| method := "GET";
                url := "https://www.googleapis.com/plus/v1/people/me?alt=json" |}
  = Raise (KeyError "access_token").
Proof. reflexivity. Qed.

Example respond_to_blank_token :
  respond_to {| method := "GET";
                url := "https://www.googleapis.com/plus/v1/people/me?access_token=" |}
  = Raise (KeyError "access_token").
Proof. reflexivity. Qed.

Example respond_to_invalid_token :
  respond_to {| method := "GET";
                url := "https://www.googleapis.com/plus/v1/people/me?access_token=invalid_token" |}
  = Ret (401, ∅, Json.dumps invalid_token_body).
Proof. reflexivity. Qed.

Example pattern_needs_question_mark :
  (pattern ← TestGoogle.mock_url;
   Some (Re.pattern_match pattern <$>
           ["https://www.googleapis.com/plus/v1/people/me";
            "https://www.googleapis.com/plus/v1/people/me?";
            "https://wwwxgoogleapis.com/plus/v1/people/me?a=b";
            "https://www.googleapis.com/plus/v1/people/me?a=b%20";
            "https://www.googleapis.com/plus/v1/people/me?a=b&=c";
            "https://www.googleapis.com/plus/v1/people/me?a&b=&c-d=e_"]))
  = Some [false; true; false; false; false; true].
Proof. reflexivity. Qed.

Example mocked_other_request :
  (pattern ← TestGoogle.mock_url;
   Some (mocked pattern
           {| method := "POST";
              url := "https://www.googleapis.com/plus/v1/people/me?access_token=user_1" |}))
  = Some (Raise ConnectionError).
Proof. reflexivity. Qed.

Example invalid_token_login :
  Login.status_code
    (Login.login Login.sample_facebook_url
       (Login.test_network Login.sample_facebook_url Login.GoogleOAuth2)
       0 "google-oauth2" "invalid_token" Login.empty_world).1 = 401.
Proof. reflexivity. Qed.

Example yahoo_is_not_enabled : Login.resolve "yahoo" = None.
Proof. reflexivity. Qed.

(** * The mock provider endpoint: the claims on [respond_to] *)

(** C5, amended.  For every request whose URL carries an [access_token]
    value, the mock answers 200 with the JSON text of that token's
    [USER_INFO] entry when the token is a key of [USER_INFO], and 401 with
    the JSON text of the error body otherwise; so the status is 200 exactly
    when the token is in the known-good set.  The three texts are written
    out.  A request whose URL carries no such value gets no answer at all:
    [respond_to] raises. *)
Theorem respond_to_known_good request :
  Str.isascii (url request) = true →
  (∀ token,
     carries_token (url request) token →
     (token = "user_1" → respond_to request = Ret (200, ∅, user_1_json))
     ∧ (token = "user_2" → respond_to request = Ret (200, ∅, user_2_json))
     ∧ (¬ known_good token →
        respond_to request = Ret (401, ∅, invalid_token_json))
     ∧ (∀ body, USER_INFO !! token = Some body →
                respond_to request = Ret (200, ∅, Json.dumps body))
     ∧ ((∃ hs text, respond_to request = Ret (200, hs, text))
        ↔ known_good token))
  ∧ ((∀ token, ¬ carries_token (url request) token) →
     respond_to request = Raise (KeyError "access_token")
     ∨ respond_to request = Raise ValueError).
Proof.
  intros _. split.
  - intros token Hc%UrlFacts.request_token_carried%UrlFacts.respond_to_token.
    rewrite Hc. unfold known_good. split_and!.
    + by intros ->.
    + by intros ->.
    + intros Hk. destruct (USER_INFO !! token) as [body|]; [|done].
      destruct Hk. by eexists.
    + by intros body ->.
    + destruct (USER_INFO !! token) as [body|]; split.
      * by eexists.
      * by eexists _, _.
      * by intros (hs & text & [=]).
      * by intros [? [=]].
  - intros Hno.
    destruct (UrlFacts.request_token_cases request) as [[t Ht]|[Ht|Ht]].
    + by apply UrlFacts.request_token_ret, Hno in Ht.
    + left. by apply UrlFacts.respond_to_raise.
    + right. by apply UrlFacts.respond_to_raise.
Qed.

Lemma respond_to_known_good_witness :
  respond_to {| method := "GET";
                url := "https://www.googleapis.com/plus/v1/people/me?access_token=user_1&alt=json" |}
  = Ret (200, ∅, user_1_json)
  ∧ respond_to {| method := "GET";
                  url := "https://graph.facebook.com/me?fields=id&access_token=00001" |}
    = Ret (401, ∅, invalid_token_json).
Proof.
  split.
  - apply (proj1 (respond_to_known_good
                    {| method := "GET";
                       url := "https://www.googleapis.com/plus/v1/people/me?access_token=user_1&alt=json" |}
                    eq_refl) "user_1"); [|done].
    eexists _, [], "access_token=user_1", ["alt=json"].
    split_and!; [reflexivity|reflexivity|constructor|].
    exists "access_token", "user_1". by split_and!.
  - apply (proj1 (respond_to_known_good
                    {| method := "GET";
                       url := "https://graph.facebook.com/me?fields=id&access_token=00001" |}
                    eq_refl) "00001").
    + eexists _, ["fields=id"], "access_token=00001", [].
      split_and!; [reflexivity|reflexivity| |].
      * constructor; [|constructor].
        intros (v & rn & rv & [= <- <-] & _ & [=] & _).
      * exists "access_token", "00001". by split_and!.
    + by intros [?|?]%UrlFacts.known_good_iff.
Defined.

(** C5, the counterexample.  A GET of the Google endpoint with no
    [access_token], or with a blank one, is a request the endpoint pattern
    admits; [mocked] hands it to [respond_to], which raises [KeyError]: it
    is answered neither 200 nor 401. *)
Lemma mocked_request_without_token :
  ∃ pattern,
    TestGoogle.mock_url = Some pattern
    ∧ mocked pattern
        {| method := "GET";
           url := "https://www.googleapis.com/plus/v1/people/me?alt=json" |}
      = Raise (KeyError "access_token")
    ∧ mocked pattern
        {| method := "GET";
           url := "https://www.googleapis.com/plus/v1/people/me?access_token=" |}
      = Raise (KeyError "access_token").
Proof. by eexists. Qed.

(** C9.  Two requests whose URLs carry the same [access_token] value get
    the same answer from [respond_to], and it is an answer (status, empty
    headers, body), whatever else the two URLs hold. *)
Theorem respond_to_depends_on_token r1 r2 token :
  Str.isascii (url r1) = true →
  Str.isascii (url r2) = true →
  carries_token (url r1) token →
  carries_token (url r2) token →
  respond_to r1 = respond_to r2
  ∧ ∃ status text, respond_to r1 = Ret (status, ∅, text).
Proof.
  intros _ _ H1%UrlFacts.request_token_carried%UrlFacts.respond_to_token
         H2%UrlFacts.request_token_carried%UrlFacts.respond_to_token.
  rewrite H1, H2. split; [done|].
  destruct (USER_INFO !! token); by eexists _, _.
Qed.

Lemma respond_to_depends_on_token_witness :
  respond_to {| method := "GET";
                url := "https://www.googleapis.com/plus/v1/people/me?access_token=user_2" |}
  = respond_to {| method := "POST";
                  url := "http://[::1]:8000/elsewhere;v=1?alt=json&access_token=user%5F2&access_token=no#top" |}
  ∧ ∃ status text,
      respond_to {| method := "GET";
                    url := "https://www.googleapis.com/plus/v1/people/me?access_token=user_2" |}
      = Ret (status, ∅, text).
Proof.
  apply (respond_to_depends_on_token
           {| method := "GET";
              url := "https://www.googleapis.com/plus/v1/people/me?access_token=user_2" |}
           {| method := "POST";
              url := "http://[::1]:8000/elsewhere;v=1?alt=json&access_token=user%5F2&access_token=no#top" |}
           "user_2" eq_refl eq_refl).
  - eexists _, [], "access_token=user_2", [].
    split_and!; [reflexivity|reflexivity|constructor|].
    exists "access_token", "user_2". by split_and!.
  - eexists _, ["alt=json"], "access_token=user%5F2", ["access_token=no"].
    split_and!; [reflexivity|reflexivity| |].
    + constructor; [|constructor].
      intros (v & rn & rv & [= <- <-] & _ & [=] & _).
    + exists "access_token", "user%5F2". by split_and!.
Defined.

(** C10.  [respond_to] raises [KeyError] exactly when [urlparse] accepts
    the URL and no field of its query names a non-empty [access_token]; it
    returns an answer exactly when the URL carries an [access_token] value.
    The one other way out is the [ValueError] of [urlparse] itself, on a
    network location it rejects, raised before any query is read. *)
Theorem respond_to_key_error request :
  Str.isascii (url request) = true →
  (respond_to request = Raise (KeyError "access_token") ↔
   ∃ parsed,
     Urllib.urlparse (url request) = Ret parsed
     ∧ Forall (λ f, ¬ names_param "access_token" f)
              (Str.split "&" (Urllib.query parsed)))
  ∧ ((∃ answer, respond_to request = Ret answer) ↔
     ∃ token, carries_token (url request) token)
  ∧ (respond_to request = Raise ValueError ↔
     Urllib.urlparse (url request) = Raise ValueError)
  ∧ (∀ e, respond_to request = Raise e →
          e = KeyError "access_token" ∨ e = ValueError).
Proof.
  intros _.
  assert (∀ e, respond_to request = Raise e ↔ request_token request = Raise e)
    as Hraise.
  { intros e. split; [|apply UrlFacts.respond_to_raise].
    destruct (request_token request) as [t|e'] eqn:Ht.
    - by rewrite (UrlFacts.respond_to_token _ _ Ht).
    - rewrite (UrlFacts.respond_to_raise _ _ Ht). by intros [= ->]. }
  split_and!.
  - by rewrite Hraise, UrlFacts.request_token_missing.
  - split.
    + intros [answer H].
      destruct (request_token request) as [t|e] eqn:Ht.
      * exists t. by apply UrlFacts.request_token_ret.
      * rewrite (UrlFacts.respond_to_raise _ _ Ht) in H. done.
    + intros [t Ht%UrlFacts.request_token_carried%UrlFacts.respond_to_token].
      rewrite Ht. by eexists.
  - by rewrite Hraise, UrlFacts.request_token_rejected.
  - intros e He%Hraise.
    destruct (UrlFacts.request_token_cases request) as [[t Ht]|[Ht|Ht]];
      rewrite Ht in He; [done|left|right]; by injection He.
Qed.

Lemma respond_to_key_error_witness :
  respond_to {| method := "GET";
                url := "https://www.googleapis.com/plus/v1/people/me?alt=json&access_token=" |}
  = Raise (KeyError "access_token")
  ∧ respond_to {| method := "GET"; url := "//[?access_token=user_1" |}
    = Raise ValueError.
Proof.
  split.
  - apply (respond_to_key_error
             {| method := "GET";
                url := "https://www.googleapis.com/plus/v1/people/me?alt=json&access_token=" |}
             eq_refl).
    eexists. split; [reflexivity|].
    constructor; [|constructor; [|constructor]].
    + intros (v & rn & rv & [= <- <-] & _ & [=] & _).
    + intros (v & rn & rv & [= <- <-] & Hrv & _). done.
  - by apply (respond_to_key_error
                {| method := "GET"; url := "//[?access_token=user_1" |} eq_refl).
Defined.

(** * The URL pattern of the mock *)

(** C7.  For every query string of [key=value] pairs whose keys are
    non-empty and whose keys and values hold only word characters and
    hyphens, the pattern of [TestGoogle] matches the Google endpoint URL
    followed by a question mark and that query string, and so does the
    pattern of [TestFacebook] for every library URL made of characters that
    stand for themselves in a pattern once dots are escaped. *)
Theorem mock_url_matches_query_strings params :
  Forall well_formed_param params →
  (∀ USER_DATA_URL,
     Str.forallb Re.is_literal USER_DATA_URL = true →
     endpoint_matches (TestFacebook.mock_url USER_DATA_URL)
                      (USER_DATA_URL +:+ "?" +:+ query_string params))
  ∧ endpoint_matches TestGoogle.mock_url
                     (TestGoogle.USER_DATA_URL +:+ "?" +:+ query_string params).
Proof.
  intros Hall. split.
  - intros base Hb. by apply MockUrlFacts.mock_url_matches.
  - by apply MockUrlFacts.mock_url_matches.
Qed.

Lemma mock_url_matches_query_strings_witness :
  endpoint_matches
    TestGoogle.mock_url
    "https://www.googleapis.com/plus/v1/people/me?access_token=user_1&alt=json".
Proof.
  apply (mock_url_matches_query_strings [("access_token", "user_1"); ("alt", "json")]).
  repeat constructor; done.
Defined.


(** * The login path against the mock: the claims on the endpoint *)

(** C2.  For an enabled provider and a token that is a key of [USER_INFO],
    a login on a store with no account for the token's email answers 200,
    returns a token different from the one submitted, and appends exactly
    one account, whose username is its email, the email of the token's
    entry; that account is then the only one with this email. *)
Theorem first_login_creates_account fb now name p token body address w :
  Login.plain_endpoint fb →
  Login.resolve name = Some p →
  USER_INFO !! token = Some body →
  Login.lookup_field "email" body = Some address →
  Login.accounts_with address w = [] →
  let result := Login.login fb (Login.test_network fb p) now name token w in
  Login.status_code result.1 = 200
  ∧ (∃ local, Login.data result.1 !! "token" = Some local ∧ local ≠ token)
  ∧ ∃ account,
      Login.accounts result.2 = Login.accounts w ++ [account]
      ∧ Login.user_email account = address
      ∧ Login.username account = Login.user_email account
      ∧ Login.accounts_with address result.2 = [account].
Proof.
  intros Hfb Hr Hk Hmail Hnone.
  pose proof (LoginFacts.verify_known fb p token body w Hfb Hk) as Hv.
  rewrite <- LoginFacts.test_mock_url_eq in Hv.
  assert (∃ ident, Login.parse_identity p (Json.dumps body) = inr ident
                   ∧ Login.email ident = address) as (ident & Hid & <-).
  { destruct (LoginFacts.known_body _ _ Hk) as [[_ ->]|[_ ->]];
      injection Hmail as <-; by eexists. }
  rewrite Hid in Hv.
  destruct (LoginFacts.login_first_time fb _ now name p token w ident _
              Hr Hv eq_refl Hnone) as (H1 & H2 & account & H3 & H4 & H5 & H6).
  split_and!; [done|done|]. exists account. by rewrite H4.
Qed.

Lemma first_login_creates_account_witness :
  let result := Login.login Login.sample_facebook_url
                  (Login.test_network Login.sample_facebook_url Login.GoogleOAuth2)
                  0 "google-oauth2" "user_2" Login.empty_world in
  Login.status_code result.1 = 200
  ∧ (∃ local, Login.data result.1 !! "token" = Some local ∧ local ≠ "user_2")
  ∧ ∃ account,
      Login.accounts result.2 = [account]
      ∧ Login.user_email account = "winnie@100acre.net"
      ∧ Login.username account = Login.user_email account
      ∧ Login.accounts_with "winnie@100acre.net" result.2 = [account].
Proof.
  apply (first_login_creates_account
           Login.sample_facebook_url 0 "google-oauth2" Login.GoogleOAuth2
           "user_2" user_2 "winnie@100acre.net" Login.empty_world);
    [by split|reflexivity|reflexivity|reflexivity|reflexivity].
Defined.

(** C3.  For an enabled provider and a token that is no key of [USER_INFO],
    the login is rejected (401 when the mock answers, 503 when the request
    gets no answer from it), the response has no [token] field, and the
    accounts and access tokens of the store are the ones it had. *)
Theorem login_rejects_unknown_token fb now name p token w :
  Login.plain_endpoint fb →
  Login.resolve name = Some p →
  ¬ known_good token →
  let result := Login.login fb (Login.test_network fb p) now name token w in
  (Login.status_code result.1 = 401 ∨ Login.status_code result.1 = 503)
  ∧ Login.data result.1 !! "token" = None
  ∧ Login.accounts result.2 = Login.accounts w
  ∧ Login.tokens result.2 = Login.tokens w
  ∧ Login.writes result.2 = Login.writes w.
Proof.
  intros Hfb Hr Hk.
  assert (USER_INFO !! token = None) as Hnone.
  { destruct (USER_INFO !! token) eqn:E; [|done]. destruct Hk. by eexists. }
  destruct (LoginFacts.verify_unknown fb (Login.test_mock_url fb p) p token w
              Hfb Hnone) as [e He].
  exact (LoginFacts.login_no_identity fb _ now name p token w e Hr He).
Qed.

Lemma login_rejects_unknown_token_witness :
  let result := Login.login Login.sample_facebook_url
                  (Login.test_network Login.sample_facebook_url Login.Facebook)
                  0 "facebook" "invalid_token" Login.empty_world in
  (Login.status_code result.1 = 401 ∨ Login.status_code result.1 = 503)
  ∧ Login.data result.1 !! "token" = None
  ∧ Login.accounts result.2 = []
  ∧ Login.tokens result.2 = []
  ∧ Login.writes result.2 = 0.
Proof.
  apply (login_rejects_unknown_token
           Login.sample_facebook_url 0 "facebook" Login.Facebook
           "invalid_token" Login.empty_world);
    [by split|reflexivity|].
  intros [body H]. vm_compute in H. discriminate H.
Defined.

(** C6, as the code has it.  The identity with id 00001 is stored under the
    token [user_1]: the mock answers a request that carries [user_1] with
    200 and the JSON text of that identity; submitted to provider facebook
    on a store with no account for foo@bar.com, [user_1] is verified as that
    identity, the login answers 200 with a [token] field different from
    [user_1], and a new account with username foo@bar.com is appended. *)
Theorem facebook_user_1_login fb now w :
  Login.plain_endpoint fb →
  Login.accounts_with "foo@bar.com" w = [] →
  let network := Login.harness (TestFacebook.mock_url fb) in
  let result := Login.login fb network now "facebook" "user_1" w in
  respond_to (Login.user_info_request fb Login.Facebook "user_1")
  = Ret (200, ∅, Json.dumps [("id", "00001"); ("name", "Foo Bar");
                             ("email", "foo@bar.com")])
  ∧ (Login.verify fb network Login.Facebook "user_1" w).1
  = inr {| Login.provider := Login.Facebook; Login.external_id := "00001";
           Login.email := "foo@bar.com"; Login.display_name := "Foo Bar" |}
  ∧ Login.status_code result.1 = 200
  ∧ (∃ local, Login.data result.1 !! "token" = Some local ∧ local ≠ "user_1")
  ∧ ∃ account,
      Login.accounts result.2 = Login.accounts w ++ [account]
      ∧ Login.username account = "foo@bar.com".
Proof.
  intros Hfb Hnone.
  pose proof (LoginFacts.verify_known fb Login.Facebook "user_1" user_1 w
                Hfb eq_refl) as Hv.
  rewrite LoginFacts.parse_identity_user_1 in Hv.
  change (mock_url (Login.user_info_url fb Login.Facebook))
    with (TestFacebook.mock_url fb) in Hv.
  destruct (LoginFacts.login_first_time fb _ now "facebook" Login.Facebook
              "user_1" w _ _ eq_refl Hv eq_refl Hnone)
    as (H1 & H2 & account & H3 & H4 & H5 & H6).
  cbv zeta. split_and!; [|by rewrite Hv|done|done|by exists account].
  rewrite (UrlFacts.respond_to_token _ "user_1"); [reflexivity|].
  exact (LoginFacts.adapter_token_plain fb "user_1" "GET" Hfb).
Qed.

Lemma facebook_user_1_login_witness :
  let network := Login.harness (TestFacebook.mock_url Login.sample_facebook_url) in
  let result := Login.login Login.sample_facebook_url network 0 "facebook"
                            "user_1" Login.empty_world in
  respond_to {| method := "GET";
                url := "https://graph.facebook.com/me?access_token=user_1" |}
  = Ret (200, ∅, Json.dumps user_1)
  ∧ (Login.verify Login.sample_facebook_url network Login.Facebook "user_1"
                Login.empty_world).1
  = inr {| Login.provider := Login.Facebook; Login.external_id := "00001";
           Login.email := "foo@bar.com"; Login.display_name := "Foo Bar" |}
  ∧ Login.status_code result.1 = 200
  ∧ (∃ local, Login.data result.1 !! "token" = Some local ∧ local ≠ "user_1")
  ∧ ∃ account,
      Login.accounts result.2 = [account]
      ∧ Login.username account = "foo@bar.com".
Proof.
  apply (facebook_user_1_login Login.sample_facebook_url 0 Login.empty_world);
    [by split|reflexivity].
Defined.

(** C6 as the specification words it fails: 00001 is the id of the
    identity, not a token.  The mock answers a request that carries it with
    401, and the login it is submitted to is rejected with no [token] field
    and no account. *)
Lemma token_00001_is_rejected :
  USER_INFO !! "00001" = None
  ∧ respond_to {| method := "GET";
                  url := Login.sample_facebook_url +:+ "?access_token=00001" |}
    = Ret (401, ∅, Json.dumps invalid_token_body)
  ∧ let result := Login.login Login.sample_facebook_url
                    (Login.harness (TestFacebook.mock_url Login.sample_facebook_url))
                    0 "facebook" "00001" Login.empty_world in
    Login.status_code result.1 = 401
    ∧ Login.data result.1 !! "token" = None
    ∧ Login.accounts result.2 = [].
Proof. by vm_compute. Qed.


(** * Beyond the claims: more of the mock and of the URL pattern *)

(** ** What the URL pattern admits, and nothing else *)

Module PatternFacts.
Import Str Re StrFacts ReFacts TextFacts MockUrlFacts.

Lemma lang_cat_inv r1 r2 s :
  lang (Cat r1 r2) s → ∃ a b, s = a +:+ b ∧ lang r1 a ∧ lang r2 b.
Proof. inversion 1; subst. eauto. Qed.

Lemma lang_lit_inv c s : lang (Lit c) s → s = String c EmptyString.
Proof. by inversion 1. Qed.

Lemma lang_opt_inv r s : lang (Opt r) s → s = EmptyString ∨ lang r s.
Proof. inversion 1; subst; auto. Qed.

Lemma lang_group_inv r s : lang (Group r) s → lang r s.
Proof. by inversion 1. Qed.

Lemma lang_plus_inv r s :
  lang (Plus r) s → ∃ a b, s = a +:+ b ∧ lang r a ∧ lang (Star r) b.
Proof. inversion 1; subst. eauto. Qed.

Lemma lang_class_inv items s :
  lang (Class items) s → ∃ c, s = String c EmptyString ∧ in_class items c = true.
Proof. inversion 1; subst. eauto. Qed.

Lemma lang_field_class_inv s :
  lang field_class s → ∃ c, s = String c EmptyString ∧ is_field_char c = true.
Proof.
  intros (c & -> & Hc)%lang_class_inv. exists c. by rewrite <- in_field_class.
Qed.

Lemma lang_star_class_inv w :
  lang (Star field_class) w → forallb is_field_char w = true.
Proof.
  intros H. remember (Star field_class) as r eqn:Hr.
  induction H as [| | | | | | | | | |r0 s1 s2 H1 _ H2 IH| |]; try done.
  injection Hr as ->.
  apply lang_field_class_inv in H1 as (c & -> & Hc).
  change (forallb is_field_char (String c s2) = true).
  simpl. by rewrite Hc, IH.
Qed.

Lemma lang_plus_class_inv k :
  lang (Plus field_class) k → k ≠ EmptyString ∧ forallb is_field_char k = true.
Proof.
  intros (a & b & -> & (c & -> & Hc)%lang_field_class_inv
            & Hb%lang_star_class_inv)%lang_plus_inv.
  change (String c EmptyString +:+ b) with (String c b).
  simpl. by rewrite Hc, Hb.
Qed.

Lemma lang_value_inv vp :
  lang value_part vp →
  vp = EmptyString ∨ ∃ v, vp = "=" +:+ v ∧ forallb is_field_char v = true.
Proof.
  intros [->|H%lang_group_inv]%lang_opt_inv; [by left|]. right.
  apply lang_cat_inv in H as (a & b & -> & ->%lang_lit_inv & H).
  apply lang_cat_inv in H as (v & e & -> & Hv%lang_star_class_inv
                                & ->%lang_eps_inv).
  exists v. by rewrite app_nil_r.
Qed.

Lemma valid_field_key k :
  k ≠ EmptyString → forallb is_field_char k = true → valid_field k = true.
Proof.
  intros Hk Hc. unfold valid_field.
  rewrite partition_missing by by apply (forallb_contains is_field_char).
  simpl. rewrite Hc. by destruct k.
Qed.

Lemma valid_field_key_value k v :
  k ≠ EmptyString → forallb is_field_char k = true →
  forallb is_field_char v = true →
  valid_field (k +:+ "=" +:+ v) = true.
Proof.
  intros Hk Hc Hv. unfold valid_field.
  change (k +:+ "=" +:+ v) with (k +:+ String "=" v).
  rewrite partition_found by by apply (forallb_contains is_field_char).
  simpl. rewrite Hc, Hv. by destruct k.
Qed.

Lemma valid_field_inv f :
  valid_field f = true →
  ∃ k, k ≠ EmptyString ∧ forallb is_field_char k = true
       ∧ (f = k ∨ ∃ v, f = k +:+ "=" +:+ v ∧ forallb is_field_char v = true).
Proof.
  unfold valid_field.
  destruct (partition "=" f) as [k [v|]] eqn:E; simpl;
    intros [[Hk Hc]%andb_true_iff Hv]%andb_true_iff;
    exists k; (split_and!; [by destruct k|done|]).
  - right. exists v. by apply partition_some in E as [-> _].
  - left. by apply partition_none in E as [-> _].
Qed.

Lemma valid_field_lacks_amp f : valid_field f = true → contains "&" f = false.
Proof.
  intros (k & _ & Hk & [->|(v & -> & Hv)])%valid_field_inv.
  - by apply (forallb_contains is_field_char).
  - rewrite !contains_app.
    rewrite (forallb_contains is_field_char "&" k) by done.
    by rewrite (forallb_contains is_field_char "&" v) by done.
Qed.

Lemma forallb_Forall {A} (p : A → bool) l :
  List.forallb p l = true ↔ Forall (λ x, p x = true) l.
Proof.
  induction l as [|x l IH]; simpl.
  - split; [constructor|done].
  - rewrite andb_true_iff, IH. split.
    + intros [? ?]. by constructor.
    + by intros [? ?]%Forall_cons.
Qed.

(** One field, then what the rest of the sequence admits. *)
Lemma lang_field_inv atoms s :
  lang (seq (Plus field_class :: value_part :: atoms)) s →
  ∃ f t, s = f +:+ t ∧ valid_field f = true ∧ lang (seq atoms) t.
Proof.
  intros (k & r & -> & [Hk Hc]%lang_plus_class_inv & H)%lang_cat_inv.
  apply lang_cat_inv in H as (vp & t & -> & Hvp%lang_value_inv & Ht).
  destruct Hvp as [->|(v & -> & Hv)].
  - exists k, t. split_and!; [done|by apply valid_field_key|done].
  - exists (k +:+ "=" +:+ v), t.
    split_and!; [by rewrite !app_assoc|by apply valid_field_key_value|done].
Qed.

Lemma lang_field atoms f t :
  valid_field f = true →
  lang (seq atoms) t →
  lang (seq (Plus field_class :: value_part :: atoms)) (f +:+ t).
Proof.
  intros (k & Hk & Hc & [->|(v & -> & Hv)])%valid_field_inv Ht.
  - apply lang_seq_cons; [by apply lang_plus_class|].
    apply (lang_seq_cons _ _ EmptyString); [constructor|done].
  - rewrite !app_assoc.
    apply lang_seq_cons; [by apply lang_plus_class|].
    rewrite <- app_assoc.
    apply lang_seq_cons; [by apply lang_value_part|done].
Qed.

(** The repeated group admits exactly a run of ampersand-led valid fields. *)
Lemma lang_more_inv m :
  lang more_params m →
  ∃ fields,
    Forall (λ f, valid_field f = true) fields
    ∧ ∀ first, contains "&" first = false →
               split "&" (first +:+ m) = first :: fields.
Proof.
  intros H. remember more_params as r eqn:Hr. unfold more_params in Hr.
  induction H as [| | | | | | | | |r0|r0 s1 s2 H1 _ H2 IH| |]; try done.
  - exists []. split; [constructor|].
    intros first Hf. rewrite app_nil_r. by apply split_missing.
  - injection Hr as ->.
    destruct (IH eq_refl) as (fields & Hall & Hsplit).
    apply lang_group_inv, lang_cat_inv in H1
      as (a & b & -> & ->%lang_lit_inv & H1).
    apply (lang_field_inv []) in H1 as (f & e & -> & Hf & ->%lang_eps_inv).
    rewrite app_nil_r.
    exists (f :: fields). split; [by constructor|].
    intros first Hfirst. rewrite app_assoc.
    change (first +:+ "&" +:+ f +:+ s2) with (first +:+ String "&" (f +:+ s2)).
    rewrite split_cons by done.
    by rewrite Hsplit by by apply valid_field_lacks_amp.
Qed.

Lemma lang_more_fields fields : ∀ first,
  Forall (λ f, valid_field f = true) fields →
  ∃ more, join "&" (first :: fields) = first +:+ more ∧ lang more_params more.
Proof.
  induction fields as [|f fields IH]; intros first Hall.
  - exists EmptyString. simpl. rewrite app_nil_r. split; [done|constructor].
  - apply Forall_cons in Hall as [Hf Hall].
    destruct (IH f Hall) as (more & Hj & Hm).
    exists ("&" +:+ f +:+ more). split.
    + change (join "&" (first :: f :: fields))
        with (first +:+ "&" +:+ join "&" (f :: fields)).
      by rewrite Hj.
    + assert ("&" +:+ f +:+ more = ("&" +:+ f +:+ EmptyString) +:+ more) as ->.
      { by rewrite !app_assoc. }
      apply L_Star_more; [|done].
      apply L_Group, (lang_seq_cons _ _ "&"); [constructor|].
      apply lang_field; [done|constructor].
Qed.

Lemma lang_query_iff t :
  lang (seq query_atoms) t ↔ ∃ q, t = "?" +:+ q ∧ valid_query q = true.
Proof.
  split.
  - intros (a & b & -> & ->%lang_lit_inv & H)%lang_cat_inv.
    apply lang_cat_inv in H as (q & e & -> & H & ->%lang_eps_inv).
    rewrite app_nil_r. exists q. split; [done|].
    apply lang_opt_inv in H as [->|H%lang_group_inv]; [done|].
    apply (lang_field_inv [more_params]) in H as (f & m & -> & Hf & H).
    apply lang_cat_inv in H as (m' & e & -> & H & ->%lang_eps_inv).
    rewrite app_nil_r.
    apply lang_more_inv in H as (fields & Hall & Hsplit).
    unfold valid_query. rewrite Hsplit by by apply valid_field_lacks_amp.
    apply orb_true_iff. right. simpl. rewrite Hf.
    by apply forallb_Forall.
  - intros (q & -> & Hq).
    apply (lang_seq_cons _ _ "?"); [constructor|].
    apply lang_seq_last.
    unfold valid_query in Hq. apply orb_true_iff in Hq as [->%is_empty_true|Hq];
      [constructor|].
    rewrite <- (join_split "&" q).
    destruct (split "&" q) as [|f fields]; [constructor|].
    simpl in Hq. apply andb_true_iff in Hq as [Hf Hall].
    destruct (lang_more_fields fields f) as (more & -> & Hm).
    { by apply forallb_Forall. }
    apply L_Opt_some, L_Group, lang_field; [done|by apply lang_seq_last].
Qed.

Lemma lang_literals_inv base atoms a :
  lang (seq ((Lit <$> list_ascii_of_string base) ++ atoms)) a →
  ∃ t, a = base +:+ t ∧ lang (seq atoms) t.
Proof.
  revert a. induction base as [|c base IH]; intros a H.
  - by exists a.
  - apply lang_cat_inv in H as (x & y & -> & ->%lang_lit_inv & H).
    apply IH in H as (t & -> & Ht). by exists t.
Qed.

Lemma at_end_dollar b :
  at_end true b = true ↔ b = EmptyString ∨ b = String newline EmptyString.
Proof.
  destruct b as [|c [|d b]]; simpl; split; auto.
  - intros ->%Ascii.eqb_eq. by right.
  - intros [|[= ->]]; [done|]. apply Ascii.eqb_refl.
  - done.
  - by intros [|].
Qed.

(** The compiled pattern of an endpoint matches exactly its endpoint URLs. *)
Lemma mock_url_exact base :
  forallb is_literal base = true →
  ∃ pattern, mock_url base = Some pattern
             ∧ ∀ u, pattern_match pattern u = true ↔ endpoint_url base u.
Proof.
  intros Hb. eexists. split; [by apply mock_url_compiles|].
  intros u. unfold pattern_match. simpl. rewrite match_from_spec. split.
  - intros (a & b & -> & (t & -> & (q & -> & Hq)%lang_query_iff)%lang_literals_inv
              & Hb'%at_end_dollar).
    exists q. split; [done|].
    destruct Hb' as [-> | ->]; [left|right]; by rewrite ?app_nil_r, ?app_assoc.
  - intros (q & Hq & [-> | ->]).
    + exists (base +:+ "?" +:+ q), EmptyString.
      split_and!; [by rewrite app_nil_r| |done].
      apply lang_literals, lang_query_iff. by exists q.
    + exists (base +:+ "?" +:+ q), (String newline EmptyString).
      split_and!; [by rewrite !app_assoc| |by apply at_end_dollar; right].
      apply lang_literals, lang_query_iff. by exists q.
Qed.

End PatternFacts.

(** ** What [respond_to] reads of a URL *)

Module AnswerFacts.
Import Str Urllib StrFacts UrlFacts TextFacts AdapterFacts.

Lemma parse_qs_values qs name values :
  parse_qs qs !! name = Some values → values ≠ [].
Proof.
  rewrite parse_qs_lookup.
  destruct (values_for name (parse_qsl qs)); [done|]. by intros [= <-].
Qed.

Lemma respond_to_raises request e :
  respond_to request = Raise e → e = KeyError "access_token" ∨ e = ValueError.
Proof.
  destruct (request_token_cases request) as [[t Ht]|[Ht|Ht]].
  - by rewrite (respond_to_token _ _ Ht).
  - rewrite (respond_to_raise _ _ Ht). intros [= <-]. by left.
  - rewrite (respond_to_raise _ _ Ht). intros [= <-]. by right.
Qed.

Lemma respond_to_rejected request :
  respond_to request = Raise ValueError ↔
  urlparse (url request) = Raise ValueError.
Proof.
  rewrite <- request_token_rejected. split; [|apply respond_to_raise].
  destruct (request_token request) as [t|e] eqn:Ht.
  - by rewrite (respond_to_token _ _ Ht).
  - rewrite (respond_to_raise _ _ Ht). by intros [= ->].
Qed.

Lemma skipped_field_unnamed f :
  skipped_field f = true → ¬ names_param "access_token" f.
Proof.
  unfold skipped_field. intros [_ H]%andb_true_iff
    (v & rn & rv & Hp & Hrv%is_empty_false & Hn & _).
  rewrite Hp, Hrv, Hn in H. done.
Qed.

Lemma skipped_field_lacks f :
  skipped_field f = true → contains "&" f = false ∧ contains "#" f = false.
Proof.
  unfold skipped_field.
  intros [[H1%negb_true_iff H2%negb_true_iff]%andb_true_iff _]%andb_true_iff.
  done.
Qed.

Lemma leading_fields_lack_hash before :
  List.forallb skipped_field before = true →
  contains "#" (leading_fields before) = false.
Proof.
  induction before as [|f before IH]; simpl; [done|].
  intros [[_ Hf]%skipped_field_lacks Hb]%andb_true_iff.
  by rewrite !contains_app, Hf, (IH Hb).
Qed.

Lemma split_leading_fields before s :
  List.forallb skipped_field before = true →
  split "&" (leading_fields before +:+ s) = before ++ split "&" s.
Proof.
  induction before as [|f before IH]; simpl; [done|].
  intros [[Hf _]%skipped_field_lacks Hb]%andb_true_iff.
  rewrite !app_assoc.
  change (f +:+ "&" +:+ leading_fields before +:+ s)
    with (f +:+ String "&" (leading_fields before +:+ s)).
  by rewrite split_cons, (IH Hb).
Qed.

(** The part of a cut-off tail before its first hash is empty or starts
    with an ampersand. *)
Lemma cut_off_before_hash tail :
  cut_off tail = true →
  (partition "#" tail).1 = EmptyString
  ∨ ∃ t, (partition "#" tail).1 = String "&" t.
Proof.
  destruct tail as [|c tail]; [by left|]. simpl.
  intros [H|H]%orb_true_iff; apply Ascii.eqb_eq in H as ->; simpl.
  - right. destruct (partition "#" tail) as [a b]. by exists a.
  - by left.
Qed.

(** The token read from a URL whose first field naming [access_token] is
    [access_token=raw]. *)
Lemma request_token_first prefix before raw tail m :
  contains "?" prefix = false →
  contains "#" prefix = false →
  no_bracket prefix = true →
  List.forallb skipped_field before = true →
  raw ≠ EmptyString →
  contains "&" raw = false →
  contains "#" raw = false →
  cut_off tail = true →
  forallb is_safe (leading_fields before +:+ "access_token=" +:+ raw +:+ tail)
    = true →
  request_token
    {| method := m;
       url := prefix +:+ "?" +:+ leading_fields before
              +:+ "access_token=" +:+ raw +:+ tail |}
  = Ret (unquote_plus raw).
Proof.
  intros Hq Hh [Ho%negb_true_iff Hc%negb_true_iff]%andb_true_iff
         Hb Hraw Hamp Hhash Htail Hsafe.
  apply request_token_carried. simpl url.
  pose (t1 := (partition "#" tail).1).
  destruct (SplitFacts.urlparse_at_query prefix
              (leading_fields before +:+ "access_token=" +:+ raw +:+ tail)
              Hq Hh Ho Hc) as (parsed & E & Hp).
  assert (query parsed
          = leading_fields before +:+ "access_token=" +:+ raw +:+ t1) as Hquery.
  { rewrite Hp, (SplitFacts.without_unsafe_safe _ Hsafe).
    assert (leading_fields before +:+ "access_token=" +:+ raw +:+ tail
            = (leading_fields before +:+ "access_token=" +:+ raw) +:+ tail)
      as -> by by rewrite !app_assoc.
    rewrite partition_app.
    2:{ rewrite !contains_app, Hhash.
        by rewrite (leading_fields_lack_hash _ Hb). }
    fold t1. simpl. by rewrite !app_assoc. }
  assert (∃ after, split "&" ("access_token=" +:+ raw +:+ t1)
                   = ("access_token=" +:+ raw) :: after) as [after Hafter].
  { destruct (cut_off_before_hash _ Htail) as [E'|[t E']]; fold t1 in E';
      rewrite E'.
    - exists []. rewrite app_nil_r. apply split_missing.
      by rewrite contains_app, Hamp.
    - exists (split "&" t).
      change ("access_token=" +:+ raw +:+ String "&" t)
        with ("access_token=" +:+ (raw +:+ String "&" t)).
      rewrite <- app_assoc. apply split_cons.
      by rewrite contains_app, Hamp. }
  exists parsed, before, ("access_token=" +:+ raw), after. split_and!.
  - exact E.
  - by rewrite Hquery, split_leading_fields, Hafter.
  - apply PatternFacts.forallb_Forall in Hb.
    eapply Forall_impl; [exact Hb|]. intros f Hf.
    by apply skipped_field_unnamed.
  - exists "access_token", raw. by split_and!.
Qed.

Lemma request_token_alone raw :
  raw ≠ EmptyString →
  contains "&" raw = false →
  contains "#" raw = false →
  forallb is_safe raw = true →
  request_token {| method := "GET"; url := "?access_token=" +:+ raw |}
  = Ret (unquote_plus raw).
Proof.
  intros Hraw Hamp Hhash Hsafe.
  pose proof (request_token_first EmptyString [] raw EmptyString "GET"
                eq_refl eq_refl eq_refl eq_refl Hraw Hamp Hhash eq_refl) as H.
  rewrite !app_nil_r in H. apply H.
  change (forallb is_safe ("access_token=" +:+ raw) = true).
  by rewrite forallb_app, Hsafe.
Qed.

(** A URL with no question mark before its first hash, and no bracket
    there, has no query. *)
Lemma respond_to_no_query m u c :
  (u = c ∨ ∃ rest, u = c +:+ String "#" rest) →
  contains "?" c = false →
  no_bracket c = true →
  respond_to {| method := m; url := u |} = Raise (KeyError "access_token").
Proof.
  intros Hu Hq [Ho%negb_true_iff Hc%negb_true_iff]%andb_true_iff.
  apply respond_to_raise, request_token_missing. simpl url.
  assert (∃ parsed, urlparse u = Ret parsed) as [parsed E].
  { destruct Hu as [->|[rest ->]].
    - by apply SplitFacts.urlparse_accepts_plain.
    - eapply SplitFacts.urlparse_accepts;
        [by apply SplitFacts.cleaned_at|by right| |];
        by apply SplitFacts.contains_cleaned. }
  exists parsed. split; [done|].
  rewrite (SplitFacts.urlparse_no_query u parsed); [| |done].
  - constructor; [|constructor]. intros (v & rn & rv & [=] & _).
  - destruct Hu as [->|[rest ->]].
    + by apply SplitFacts.contains_partition_fst.
    + rewrite SplitFacts.partition_fst_sep.
      by apply SplitFacts.contains_partition_fst.
Qed.

Lemma field_char_quote c :
  is_field_char c = true → quote_char c = String c EmptyString.
Proof. by destruct c as [[] [] [] [] [] [] [] []]. Qed.

Lemma quote_field_chars s : forallb is_field_char s = true → quote s = s.
Proof.
  induction s as [|c s IH]; simpl; [done|].
  intros [Hc Hs]%andb_true_iff. by rewrite (field_char_quote _ Hc), (IH Hs).
Qed.

Lemma quote_char_field_chars c :
  forallb is_field_char (quote_char c) = is_field_char c.
Proof. by destruct c as [[] [] [] [] [] [] [] []]. Qed.

Lemma forallb_quote s :
  forallb is_field_char (quote s) = forallb is_field_char s.
Proof.
  induction s as [|c s IH]; simpl; [done|].
  by rewrite forallb_app, quote_char_field_chars, IH.
Qed.

(** The answer to a request that carries [token]. *)
Lemma respond_to_quoted prefix token m :
  contains "?" prefix = false →
  contains "#" prefix = false →
  no_bracket prefix = true →
  respond_to {| method := m;
                url := prefix +:+ "?access_token=" +:+ quote token |}
  = if is_empty token then Raise (KeyError "access_token")
    else Ret match USER_INFO !! token with
             | Some body => (200, ∅, Json.dumps body)
             | None => (401, ∅, Json.dumps invalid_token_body)
             end.
Proof.
  intros Hq Hh [Ho%negb_true_iff Hc%negb_true_iff]%andb_true_iff.
  pose proof (adapter_token prefix token m Hq Hh Ho Hc) as Ht.
  destruct (is_empty token).
  - by apply respond_to_raise.
  - by apply respond_to_token.
Qed.

Lemma literal_no_bracket base :
  forallb Re.is_literal base = true → no_bracket base = true.
Proof.
  intros (_ & Ho & Hc)%literal_lacks. unfold no_bracket. by rewrite Ho, Hc.
Qed.

(** The adapter's URL is an endpoint URL exactly when the token is made of
    word characters and hyphens. *)
Lemma token_url_endpoint base token :
  endpoint_url base (base +:+ "?access_token=" +:+ quote token)
  ↔ forallb is_field_char token = true.
Proof.
  split.
  - intros (q & Hq & [E|E]).
    + apply app_inv_head in E.
      change ("?access_token=" +:+ quote token)
        with ("?" +:+ "access_token=" +:+ quote token) in E.
      apply app_inv_head in E. subst q.
      unfold valid_query in Hq. simpl in Hq.
      rewrite split_missing in Hq
        by by rewrite contains_app, (quote_lacks "&").
      simpl in Hq. rewrite andb_true_r in Hq. unfold valid_field in Hq.
      rewrite adapter_field_partition in Hq.
      simpl in Hq. by rewrite forallb_quote in Hq.
    + apply app_inv_head in E.
      change ("?access_token=" +:+ quote token)
        with ("?" +:+ "access_token=" +:+ quote token) in E.
      apply app_inv_head in E.
      apply (f_equal (contains newline)) in E.
      rewrite !contains_app, (quote_lacks newline) in E by done.
      simpl in E. by rewrite orb_true_r in E.
  - intros Ht. exists ("access_token=" +:+ quote token). split; [|by left].
    unfold valid_query. simpl.
    rewrite split_missing by by rewrite contains_app, (quote_lacks "&").
    simpl. rewrite andb_true_r. unfold valid_field.
    rewrite adapter_field_partition.
    simpl. by rewrite forallb_quote.
Qed.

End AnswerFacts.

(** ** The URL pattern and [mocked] *)

(** X1.  The pattern of a test class matches a URL exactly when the URL is
    the endpoint, a question mark and a query that is empty or made of
    fields separated by ampersands, each a non-empty key of word characters
    and hyphens, alone or with an equals sign and a value of such
    characters, followed by at most one newline.  It matches no other text:
    not the bare endpoint, not another character in place of a dot, no
    percent sign and no fragment. *)
Theorem mock_url_matches_exactly u :
  (∀ USER_DATA_URL,
     Str.forallb Re.is_literal USER_DATA_URL = true →
     endpoint_matches (TestFacebook.mock_url USER_DATA_URL) u
     ↔ endpoint_url USER_DATA_URL u)
  ∧ (endpoint_matches TestGoogle.mock_url u
     ↔ endpoint_url TestGoogle.USER_DATA_URL u).
Proof.
  assert (∀ base, Str.forallb Re.is_literal base = true →
            endpoint_matches (mock_url base) u ↔ endpoint_url base u) as H.
  { intros base Hb.
    destruct (PatternFacts.mock_url_exact base Hb) as (pattern & Hp & Hiff).
    unfold endpoint_matches. rewrite Hp. split.
    - intros (pattern' & [= <-] & Hm). by apply Hiff.
    - intros Hu. exists pattern. split; [done|]. by apply Hiff. }
  split; [exact H|]. by apply H.
Qed.

(** X2.  Within [mocked], a request gets [ConnectionError] exactly when it
    is not a GET of an endpoint URL; a GET of an endpoint URL gets the
    answer of [respond_to], its [KeyError] included. *)
Theorem mocked_answers_endpoint_urls base request :
  Str.forallb Re.is_literal base = true →
  ∃ pattern,
    mock_url base = Some pattern
    ∧ (mocked pattern request = Raise ConnectionError
       ↔ ¬ (method request = "GET" ∧ endpoint_url base (url request)))
    ∧ (method request = "GET" → endpoint_url base (url request) →
       mocked pattern request = respond_to request).
Proof.
  intros Hb.
  destruct (PatternFacts.mock_url_exact base Hb) as (pattern & Hp & Hiff).
  exists pattern. split; [done|]. unfold mocked.
  destruct (String.eqb_spec (method request) "GET") as [Hm|Hm]; simpl.
  - destruct (Re.pattern_match pattern (url request)) eqn:E.
    + apply Hiff in E. split.
      * split; [|by intros []].
        by intros [?|?]%AnswerFacts.respond_to_raises.
      * done.
    + assert (¬ endpoint_url base (url request)) as Hno.
      { intros Hu%Hiff. congruence. }
      split; [|done]. split; [by intros _ [_ ?]|done].
  - split; [|done]. split; [by intros _ [? _]|done].
Qed.

Lemma mocked_answers_endpoint_urls_witness :
  ∃ pattern,
    TestGoogle.mock_url = Some pattern
    ∧ (mocked pattern
         {| method := "GET";
            url := "https://www.googleapis.com/plus/v1/people/me?access_token=a.b" |}
       = Raise ConnectionError
       ↔ ¬ ("GET" = "GET"
            ∧ endpoint_url TestGoogle.USER_DATA_URL
                "https://www.googleapis.com/plus/v1/people/me?access_token=a.b"))
    ∧ ("GET" = "GET" →
       endpoint_url TestGoogle.USER_DATA_URL
         "https://www.googleapis.com/plus/v1/people/me?access_token=a.b" →
       mocked pattern
         {| method := "GET";
            url := "https://www.googleapis.com/plus/v1/people/me?access_token=a.b" |}
       = respond_to
           {| method := "GET";
              url := "https://www.googleapis.com/plus/v1/people/me?access_token=a.b" |}).
Proof.
  exact (mocked_answers_endpoint_urls
           TestGoogle.USER_DATA_URL
           {| method := "GET";
              url := "https://www.googleapis.com/plus/v1/people/me?access_token=a.b" |}
           eq_refl).
Defined.

(** X7.  For the request an adapter sends, the endpoint with the quoted
    token as its [access_token], [mocked] raises [KeyError] when the token
    is empty, answers as [respond_to] does (200 for a key of [USER_INFO],
    else 401) when the token is made of word characters and hyphens, and
    raises [ConnectionError] for every other token: a token with a dot or a
    character that needs a percent escape never reaches [respond_to]. *)
Theorem mocked_token_request base token :
  Str.forallb Re.is_literal base = true →
  Str.contains "#" base = false →
  ∃ pattern,
    mock_url base = Some pattern
    ∧ mocked pattern
        {| method := "GET";
           url := base +:+ "?access_token=" +:+ Urllib.quote token |}
      = if Str.is_empty token then Raise (KeyError "access_token")
        else if Str.forallb is_field_char token
        then Ret match USER_INFO !! token with
                 | Some body => (200, ∅, Json.dumps body)
                 | None => (401, ∅, Json.dumps invalid_token_body)
                 end
        else Raise ConnectionError.
Proof.
  intros Hb Hh.
  destruct (PatternFacts.mock_url_exact base Hb) as (pattern & Hp & Hiff).
  exists pattern. split; [done|]. unfold mocked. simpl.
  pose proof (AnswerFacts.token_url_endpoint base token) as Hurl.
  pose proof (AnswerFacts.respond_to_quoted base token "GET"
                (StrFacts.forallb_contains Re.is_literal "?" base eq_refl Hb) Hh
                (AnswerFacts.literal_no_bracket base Hb))
    as Hanswer.
  destruct (Str.forallb is_field_char token) eqn:Hc.
  - apply proj2 in Hurl. specialize (Hurl eq_refl). apply Hiff in Hurl.
    rewrite Hurl, Hanswer. by destruct (Str.is_empty token).
  - assert (Re.pattern_match pattern
              (base +:+ "?access_token=" +:+ Urllib.quote token) = false) as ->.
    { destruct (Re.pattern_match pattern _) eqn:E; [|done].
      apply Hiff, Hurl in E. done. }
    by destruct token.
Qed.

Lemma mocked_token_request_witness :
  ∃ pattern,
    TestGoogle.mock_url = Some pattern
    ∧ mocked pattern
        {| method := "GET";
           url := "https://www.googleapis.com/plus/v1/people/me?access_token=ya29.a0" |}
      = Raise ConnectionError.
Proof.
  exact (mocked_token_request TestGoogle.USER_DATA_URL "ya29.a0" eq_refl eq_refl).
Defined.

(** ** What [respond_to] reads of a URL *)

(** X3.  [respond_to] answers for the first field of the query that gives
    [access_token] a value.  Whatever comes before the question mark (in
    ASCII, with no bracket for [urlsplit] to check), whatever fields
    without such a value come first (a blank [access_token=] among them),
    and whatever follows that field, another [access_token] or a fragment,
    the answer is that of the field alone, as long as the query holds no
    tab, carriage return or line feed, which [urlsplit] would delete. *)
Theorem respond_to_first_token_field prefix before raw tail m :
  Str.isascii prefix = true →
  Str.contains "?" prefix = false →
  Str.contains "#" prefix = false →
  no_bracket prefix = true →
  List.forallb skipped_field before = true →
  raw ≠ EmptyString →
  Str.contains "&" raw = false →
  Str.contains "#" raw = false →
  cut_off tail = true →
  Str.forallb is_safe
    (leading_fields before +:+ "access_token=" +:+ raw +:+ tail) = true →
  respond_to {| method := m;
                url := prefix +:+ "?" +:+ leading_fields before
                       +:+ "access_token=" +:+ raw +:+ tail |}
  = respond_to {| method := "GET"; url := "?access_token=" +:+ raw |}.
Proof.
  intros _ Hq Hh Hbr Hb Hraw Hamp Hhash Htail Hsafe.
  rewrite (UrlFacts.respond_to_token _ (Urllib.unquote_plus raw)).
  2:{ by apply AnswerFacts.request_token_first. }
  symmetry. apply UrlFacts.respond_to_token.
  apply AnswerFacts.request_token_alone; try done.
  rewrite !StrFacts.forallb_app in Hsafe.
  by apply andb_true_iff in Hsafe
    as [_ [_ [? _]%andb_true_iff]%andb_true_iff].
Qed.

Lemma respond_to_first_token_field_witness :
  respond_to
    {| method := "POST";
       url := "http://localhost/any/path?alt=json&access_token=&access_token=user%5F2&access_token=user_1#access_token=no" |}
  = respond_to {| method := "GET"; url := "?access_token=user%5F2" |}.
Proof.
  apply (respond_to_first_token_field
           "http://localhost/any/path" ["alt=json"; "access_token="]
           "user%5F2" "&access_token=user_1#access_token=no" "POST");
    done.
Defined.

(** X4.  A URL with no question mark (in ASCII, with no bracket for
    [urlsplit] to check) has no query for [respond_to]: it raises
    [KeyError], and so it does when parameters are written after a hash,
    where they belong to the fragment. *)
Theorem respond_to_without_query prefix rest m :
  Str.isascii prefix = true →
  Str.contains "?" prefix = false →
  no_bracket prefix = true →
  respond_to {| method := m; url := prefix |} = Raise (KeyError "access_token")
  ∧ respond_to {| method := m; url := prefix +:+ "#" +:+ rest |}
    = Raise (KeyError "access_token").
Proof.
  intros _ Hq Hb. split.
  - apply (AnswerFacts.respond_to_no_query m prefix prefix); auto.
  - apply (AnswerFacts.respond_to_no_query m _ prefix); [|done..].
    right. by exists rest.
Qed.

Lemma respond_to_without_query_witness :
  respond_to {| method := "GET";
                url := "https://www.googleapis.com/plus/v1/people/me" |}
  = Raise (KeyError "access_token")
  ∧ respond_to {| method := "GET";
                  url := "https://www.googleapis.com/plus/v1/people/me#?access_token=user_1" |}
    = Raise (KeyError "access_token").
Proof.
  exact (respond_to_without_query
           "https://www.googleapis.com/plus/v1/people/me"
           "?access_token=user_1" "GET" eq_refl eq_refl eq_refl).
Defined.

(** X5.  Percent-encoding round trip: for every token, a URL without
    fragment whose query is [access_token] followed by the quoted token is
    answered for exactly that token, 200 with its entry when it is a key of
    [USER_INFO] and 401 otherwise; the empty token alone raises
    [KeyError].  What comes before the question mark is ASCII and holds no
    bracket for [urlsplit] to check. *)
Theorem respond_to_reads_quoted_token prefix token m :
  Str.isascii prefix = true →
  Str.contains "?" prefix = false →
  Str.contains "#" prefix = false →
  no_bracket prefix = true →
  respond_to {| method := m;
                url := prefix +:+ "?access_token=" +:+ Urllib.quote token |}
  = if Str.is_empty token then Raise (KeyError "access_token")
    else Ret match USER_INFO !! token with
             | Some body => (200, ∅, Json.dumps body)
             | None => (401, ∅, Json.dumps invalid_token_body)
             end.
Proof. intros _. apply AnswerFacts.respond_to_quoted. Qed.

Lemma respond_to_reads_quoted_token_witness :
  respond_to {| method := "GET";
                url := "http://localhost/me?access_token=user_1%26admin%3D1%23%09%5B" |}
  = Ret (401, ∅, Json.dumps invalid_token_body).
Proof.
  exact (respond_to_reads_quoted_token "http://localhost/me"
           ("user_1&admin=1#" +:+ String "009" "[")
           "GET" eq_refl eq_refl eq_refl eq_refl).
Defined.

(** X6.  [parse_qs] never maps a name to an empty list, so the [[0]] of
    [respond_to] cannot fail: the exceptions [respond_to] raises are the
    [KeyError] of a missing [access_token] and the [ValueError] of
    [urlparse], the latter exactly when [urlparse] rejects the URL. *)
Theorem respond_to_exceptions :
  (∀ qs name values, Urllib.parse_qs qs !! name = Some values → values ≠ [])
  ∧ (∀ request e, respond_to request = Raise e →
                  e = KeyError "access_token" ∨ e = ValueError)
  ∧ (∀ request, respond_to request = Raise ValueError ↔
                Urllib.urlparse (url request) = Raise ValueError).
Proof.
  split_and!.
  - apply AnswerFacts.parse_qs_values.
  - apply AnswerFacts.respond_to_raises.
  - apply AnswerFacts.respond_to_rejected.
Qed.


(** ** [json.dumps] read back *)

Module JsonFacts.
Import Str StrFacts Json.

(** One character of a literal, as [dumps] writes it. *)
Lemma loads_key_char c acc obj rest :
  json_plain c = true →
  loads_from (InKey acc false) obj (escape_char c +:+ rest)
  = loads_from (InKey (c :: acc) false) obj rest.
Proof. by destruct c as [[] [] [] [] [] [] [] []]. Qed.

Lemma loads_value_char c key acc obj rest :
  json_plain c = true →
  loads_from (InValue key acc false) obj (escape_char c +:+ rest)
  = loads_from (InValue key (c :: acc) false) obj rest.
Proof. by destruct c as [[] [] [] [] [] [] [] []]. Qed.

Lemma loads_key_chars s : ∀ acc obj rest,
  forallb json_plain s = true →
  loads_from (InKey acc false) obj (escape s +:+ rest)
  = loads_from (InKey (rev (list_ascii_of_string s) ++ acc) false) obj rest.
Proof.
  induction s as [|c s IH]; intros acc obj rest; simpl; [done|].
  intros [Hc Hs]%andb_true_iff.
  rewrite app_assoc, loads_key_char, IH by done.
  by rewrite <- (assoc_L (++)).
Qed.

Lemma loads_value_chars s : ∀ key acc obj rest,
  forallb json_plain s = true →
  loads_from (InValue key acc false) obj (escape s +:+ rest)
  = loads_from (InValue key (rev (list_ascii_of_string s) ++ acc) false) obj rest.
Proof.
  induction s as [|c s IH]; intros key acc obj rest; simpl; [done|].
  intros [Hc Hs]%andb_true_iff.
  rewrite app_assoc, loads_value_char, IH by done.
  by rewrite <- (assoc_L (++)).
Qed.

Lemma text_of_chars s :
  string_of_list_ascii (rev (rev (list_ascii_of_string s) ++ [])) = s.
Proof.
  by rewrite List.app_nil_r, rev_involutive, string_of_list_ascii_of_string.
Qed.

Lemma loads_after_key key v obj rest :
  forallb json_plain v = true →
  loads_from (AfterKey key) obj (": " +:+ quoted v +:+ rest)
  = loads_from AfterValue (<[key := v]> obj) rest.
Proof.
  intros Hv.
  change (": " +:+ quoted v +:+ rest)
    with (String ":" (String " " (String dquote
            ((escape v +:+ String dquote EmptyString) +:+ rest)))).
  rewrite app_assoc.
  change (String dquote EmptyString +:+ rest) with (String dquote rest).
  change (loads_from (AfterKey key) obj
            (String ":" (String " " (String dquote (escape v +:+ String dquote rest)))))
    with (loads_from (InValue key [] false) obj (escape v +:+ String dquote rest)).
  rewrite loads_value_chars by done.
  change (loads_from (InValue key (rev (list_ascii_of_string v) ++ []) false) obj
            (String dquote rest))
    with (loads_from AfterValue
            (<[key := string_of_list_ascii
                        (rev (rev (list_ascii_of_string v) ++ []))]> obj) rest).
  by rewrite text_of_chars.
Qed.

(** One item, as [dumps] writes it, read after an opening quote. *)
Lemma loads_item kv obj rest :
  plain_pair kv →
  loads_from (InKey [] false) obj
    (escape kv.1 +:+ String dquote (": " +:+ quoted kv.2 +:+ rest))
  = loads_from AfterValue (<[kv.1 := kv.2]> obj) rest.
Proof.
  intros [Hk Hv]. rewrite loads_key_chars by done.
  change (loads_from (InKey (rev (list_ascii_of_string kv.1) ++ []) false) obj
            (String dquote (": " +:+ quoted kv.2 +:+ rest)))
    with (loads_from
            (AfterKey (string_of_list_ascii
                         (rev (rev (list_ascii_of_string kv.1) ++ []))))
            obj (": " +:+ quoted kv.2 +:+ rest)).
  by rewrite text_of_chars, loads_after_key.
Qed.

(** The items after the first, each led by a comma and a space, and the
    closing brace. *)
Lemma loads_more body : ∀ first,
  Forall plain_pair body →
  ∃ more,
    join ", " (first :: (item <$> body)) = first +:+ more
    ∧ ∀ obj, loads_from AfterValue obj (more +:+ "}")
             = Some (foldl (λ d kv, <[kv.1 := kv.2]> d) obj body).
Proof.
  induction body as [|kv body IH]; intros first Hall.
  - exists EmptyString. simpl. by rewrite app_nil_r.
  - apply Forall_cons in Hall as [Hkv Hall].
    destruct (IH (item kv) Hall) as (more & Hj & Hm).
    exists (", " +:+ item kv +:+ more). split.
    + rewrite fmap_cons.
      change (join ", " (first :: item kv :: (item <$> body)))
        with (first +:+ ", " +:+ join ", " (item kv :: (item <$> body))).
      by rewrite Hj.
    + intros obj. unfold item at 1. unfold quoted at 1. rewrite !app_assoc.
      change (", " +:+ String dquote (escape kv.1 +:+ String dquote "")
              +:+ ": " +:+ quoted kv.2 +:+ more +:+ "}")
        with (String "," (String " " (String dquote
                ((escape kv.1 +:+ String dquote "")
                 +:+ ": " +:+ quoted kv.2 +:+ more +:+ "}")))).
      rewrite app_assoc.
      change (String dquote "" +:+ ": " +:+ quoted kv.2 +:+ more +:+ "}")
        with (String dquote (": " +:+ quoted kv.2 +:+ more +:+ "}")).
      change (loads_from AfterValue obj
                (String "," (String " " (String dquote
                   (escape kv.1 +:+ String dquote
                      (": " +:+ quoted kv.2 +:+ more +:+ "}"))))))
        with (loads_from (InKey [] false) obj
                (escape kv.1 +:+ String dquote
                   (": " +:+ quoted kv.2 +:+ more +:+ "}"))).
      by rewrite loads_item, Hm.
Qed.

Lemma loads_dumps body :
  Forall plain_pair body → loads (dumps body) = Some (dict_of body).
Proof.
  intros Hall. unfold loads, dumps, dict_of.
  destruct body as [|kv body]; [done|].
  apply Forall_cons in Hall as [Hkv Hall].
  destruct (loads_more body (item kv) Hall) as (more & Hj & Hm).
  rewrite fmap_cons, Hj. unfold item at 1. unfold quoted at 1.
  rewrite !app_assoc.
  change ("{" +:+ String dquote (escape kv.1 +:+ String dquote "")
          +:+ ": " +:+ quoted kv.2 +:+ more +:+ "}")
    with (String "{" (String dquote
            ((escape kv.1 +:+ String dquote "")
             +:+ ": " +:+ quoted kv.2 +:+ more +:+ "}"))).
  rewrite app_assoc.
  change (String dquote "" +:+ ": " +:+ quoted kv.2 +:+ more +:+ "}")
    with (String dquote (": " +:+ quoted kv.2 +:+ more +:+ "}")).
  change (loads_from Start ∅
            (String "{" (String dquote
               (escape kv.1 +:+ String dquote
                  (": " +:+ quoted kv.2 +:+ more +:+ "}")))))
    with (loads_from (InKey [] false) ∅
            (escape kv.1 +:+ String dquote
               (": " +:+ quoted kv.2 +:+ more +:+ "}"))).
  by rewrite loads_item, Hm.
Qed.

End JsonFacts.

(** X8.  The text [json.dumps] writes for a dict of strings reads back, with
    [json.loads], as that dict, whenever keys and values hold only
    characters written as themselves or with a short escape (printable
    ASCII, the quote and the backslash included, and the five control
    characters with a letter escape); so do the bodies [respond_to]
    returns. *)
Theorem json_dumps_reads_back body :
  Forall plain_pair body →
  Json.loads (Json.dumps body) = Some (dict_of body).
Proof. apply JsonFacts.loads_dumps. Qed.

Lemma json_dumps_reads_back_witness :
  Json.loads (Json.dumps user_1) = Some (dict_of user_1)
  ∧ Json.loads (Json.dumps invalid_token_body) = Some (dict_of invalid_token_body).
Proof.
  split.
  - apply (json_dumps_reads_back user_1). repeat constructor.
  - apply (json_dumps_reads_back invalid_token_body). repeat constructor.
Defined.
